(** * Floppy: the node execution core ([floppy/node.py])

    A shallow embedding of the slot model ([Info], [InputInfo],
    [OutputInfo]), of the class construction done by [MetaNode] and
    [Node.__init__], and of the check / run / notify / prepare protocol of
    [Node], [SwitchNode] and [Loop], followed by the properties the
    specification states about them.

    Conventions.
    - Python values are the inductive [pyval]; truthiness is [truthy].
    - A method that mutates [self] and may raise is a function
      [S -> result A * S]: on [Raise] the returned state is the state at the
      moment of the raise, as in Python, where assignments made before an
      exception persist.
    - [print] calls are not modelled. *)

From stdpp Require Import base option list strings gmap.
From Stdlib Require Import ZArith Lia.

Local Open Scope string_scope.
Local Open Scope Z_scope.
Local Open Scope list_scope.

(** ** Python values, types and exceptions *)

(** The values slots hold. [VInfo n] is a slot object used as a value: what
    [Node.__getattr__] returns for the output named [n]. *)
Inductive pyval : Type :=
| VNone
| VBool (b : bool)
| VInt (z : Z)
| VStr (s : string)
| VInfo (slotName : string).

(** [bool(v)]: what [if v:] tests. [Info] defines neither [__bool__] nor
    [__len__], so a slot object is truthy. *)
Definition truthy (v : pyval) : bool :=
  match v with
  | VNone => false
  | VBool b => b
  | VInt z => negb (Z.eqb z 0)
  | VStr s => negb (String.eqb s "")
  | VInfo _ => true
  end.

(** The classes used as [varType] of a slot. *)
Inductive pytype : Type := TObject | TBool | TInt | TStr | TFloat.

(** [varType.__name__] *)
Definition type_name (t : pytype) : string :=
  match t with
  | TObject => "object"
  | TBool => "bool"
  | TInt => "int"
  | TStr => "str"
  | TFloat => "float"
  end.

(** [InvalidReference] has no Python counterpart: it is what the model
    answers when a reference (a node [ID], an object address) designates
    nothing, which a Python reference cannot do. *)
Inductive exn : Type :=
| InputNotAvailable
| InputAlreadySet
| KeyError (key : string)
| AttributeError (item : string)
| TypeError
| InvalidReference.

Inductive result (A : Type) : Type :=
| Ok (a : A)
| Raise (e : exn).
Arguments Ok {A} a.
Arguments Raise {A} e.

(** ** State-and-exception monad *)

Definition M (S A : Type) : Type := S -> result A * S.

Definition ret {S A} (a : A) : M S A := fun s => (Ok a, s).

Definition raise {S A} (e : exn) : M S A := fun s => (Raise e, s).

Definition bind {S A B} (m : M S A) (k : A -> M S B) : M S B :=
  fun s =>
    match m s with
    | (Ok a, s') => k a s'
    | (Raise e, s') => (Raise e, s')
    end.

Definition get_state {S} : M S S := fun s => (Ok s, s).

Definition modify {S} (f : S -> S) : M S unit := fun s => (Ok tt, f s).

(** [try: body except InputNotAvailable: handler] *)
Definition try_except_InputNotAvailable {S A} (body handler : M S A) : M S A :=
  fun s =>
    match body s with
    | (Raise InputNotAvailable, s') => handler s'
    | r => r
    end.

(** [for x in l: acc = body acc x] *)
Fixpoint fold_m {S A B} (body : B -> A -> M S B) (l : list A) (acc : B)
    : M S B :=
  match l with
  | [] => ret acc
  | x :: l' => bind (body acc x) (fun acc' => fold_m body l' acc')
  end.

(** [for x in l: body x] *)
Fixpoint for_each {S A} (l : list A) (body : A -> M S unit) : M S unit :=
  match l with
  | [] => ret tt
  | x :: l' => bind (body x) (fun _ => for_each l' body)
  end.

Notation "'let!' x ':=' m 'in' k" := (bind m (fun x => k))
  (at level 10, x name, m at level 100, k at level 200).
Notation "'do!' m 'in' k" := (bind m (fun _ => k))
  (at level 10, m at level 100, k at level 200).

(** ** Slots: [Info], [InputInfo], [OutputInfo] *)

Module Info.

(** The attributes assigned by [Info.__init__]; [owner] is [False] until
    [setOwner] ([None] here), and [ID] is the attribute written by
    [Pin.__init__] ([info.ID = pinID]), absent ([None]) before. *)
Record t : Type := mk {
  name : string;
  varType : pytype;
  hints : list string;
  default : pyval;
  valueSet : bool;
  value : pyval;
  select : option (list pyval);
  owner : option string;
  ID : option string
}.

(** [Info.__init__(name, varType, hints, default, select, owner)] *)
Definition init (name : string) (varType : pytype)
    (hints : option (list string)) (default : pyval)
    (select : option (list pyval)) (owner : option string) : t :=
  {| name := name;
     varType := varType;
     hints := match hints with
              | None | Some [] => [type_name varType]
              | Some hs => type_name varType :: hs
              end;
     default := default;
     valueSet := false;
     value := VNone;
     select := select;
     owner := owner;
     ID := None |}.

Definition with_value (vs : bool) (v : pyval) (self : t) : t :=
  {| name := name self; varType := varType self; hints := hints self;
     default := default self; valueSet := vs; value := v;
     select := select self; owner := owner self; ID := ID self |}.

(** [Info.setOwner] *)
Definition setOwner (o : string) (self : t) : t :=
  {| name := name self; varType := varType self; hints := hints self;
     default := default self; valueSet := valueSet self;
     value := value self; select := select self; owner := Some o;
     ID := ID self |}.

(** [info.ID = pinID], done by [Pin.__init__] *)
Definition setID (pinID : string) (self : t) : t :=
  {| name := name self; varType := varType self; hints := hints self;
     default := default self; valueSet := valueSet self;
     value := value self; select := select self; owner := owner self;
     ID := Some pinID |}.

(** [Info.reset]: [self.valueSet = False; self.value = None] *)
Definition reset (self : t) : t := with_value false VNone self.

End Info.

Module InputInfo.

(** [InputInfo.__call__(self, noException=False)]; it only reads. *)
Definition call (noException : bool) (self : Info.t) : result pyval :=
  if Info.valueSet self then Ok (Info.value self)
  else if truthy (Info.default self) then Ok (Info.default self)
  else if noException then Ok VNone
  else Raise InputNotAvailable.

(** [InputInfo.set(self, value, override=False)] *)
Definition set (value : pyval) (override : bool) : M Info.t unit :=
  fun self =>
    if Info.valueSet self && negb override
    then (Raise InputAlreadySet, self)
    else (Ok tt, Info.with_value true value self).

End InputInfo.

Module OutputInfo.

(** [OutputInfo.__call__(self, value)] *)
Definition call (value : pyval) (self : Info.t) : Info.t :=
  Info.with_value true value self.

End OutputInfo.

(** ** [OrderedDict] keyed by slot name *)

Module OrderedDict.

(** [d[k]]; [None] stands for [KeyError]. *)
Fixpoint get {A} (k : string) (d : list (string * A)) : option A :=
  match d with
  | [] => None
  | (k', v) :: d' => if decide (k' = k) then Some v else get k d'
  end.

(** [d[k] = v]: an existing key keeps its position, a new key goes last. *)
Fixpoint set {A} (k : string) (v : A) (d : list (string * A))
    : list (string * A) :=
  match d with
  | [] => [(k, v)]
  | (k', v') :: d' =>
      if decide (k' = k) then (k, v) :: d' else (k', v') :: set k v d'
  end.

Definition keys {A} (d : list (string * A)) : list string := map fst d.

Definition values {A} (d : list (string * A)) : list A := map snd d.

(** Every value replaced by its image, keys and order kept: the effect of
    mutating each value object in place. *)
Definition map_values {A} (f : A -> A) (d : list (string * A))
    : list (string * A) :=
  map (fun kv => (fst kv, f (snd kv))) d.

End OrderedDict.

(** ** Nodes

    A node instance owns its slot objects (they are cloned from the class
    templates by [Node.__init__], see the class construction below), so the
    protocol model keeps them inline. [waiting] is the attribute assigned by
    [ControlNode.__init__]; [fresh] is assigned by [Loop.run] only. *)

Module Node.

Record t : Type := mk {
  ID : string;
  inputs : list (string * Info.t);
  outputs : list (string * Info.t);
  inProgress : Z;
  waiting : bool;
  fresh : option bool
}.

Definition with_inputs (i : list (string * Info.t)) (self : t) : t :=
  {| ID := ID self; inputs := i; outputs := outputs self;
     inProgress := inProgress self; waiting := waiting self;
     fresh := fresh self |}.

Definition with_outputs (o : list (string * Info.t)) (self : t) : t :=
  {| ID := ID self; inputs := inputs self; outputs := o;
     inProgress := inProgress self; waiting := waiting self;
     fresh := fresh self |}.

Definition with_inProgress (p : Z) (self : t) : t :=
  {| ID := ID self; inputs := inputs self; outputs := outputs self;
     inProgress := p; waiting := waiting self; fresh := fresh self |}.

Definition with_waiting (b : bool) (self : t) : t :=
  {| ID := ID self; inputs := inputs self; outputs := outputs self;
     inProgress := inProgress self; waiting := b; fresh := fresh self |}.

Definition with_fresh (b : bool) (self : t) : t :=
  {| ID := ID self; inputs := inputs self; outputs := outputs self;
     inProgress := inProgress self; waiting := waiting self;
     fresh := Some b |}.

(** [self.inputs[inputName].set(value, override=override)] *)
Definition setInput (inputName : string) (value : pyval) (override : bool)
    : M t unit :=
  fun self =>
    match OrderedDict.get inputName (inputs self) with
    | None => (Raise (KeyError inputName), self)
    | Some inp =>
        let (r, inp') := InputInfo.set value override inp in
        (r, with_inputs (OrderedDict.set inputName inp' (inputs self)) self)
    end.

(** The loop of [check]: [False] at the first slot that is not set, [True]
    when the loop ends. *)
Fixpoint check_inputs (l : list Info.t) : bool :=
  match l with
  | [] => true
  | inp :: l' => if negb (Info.valueSet inp) then false else check_inputs l'
  end.

(** [Node.check]; [None] is the value of the call when [self.inProgress] is
    falsy and the body falls off its end. *)
Definition check (self : t) : option bool :=
  if truthy (VInt (inProgress self))
  then Some (check_inputs (OrderedDict.values (inputs self)))
  else None.

(** [Node.prepare] *)
Definition prepare (self : t) : t :=
  with_inputs (OrderedDict.map_values Info.reset (inputs self))
    (with_inProgress 1 self).

(** [Node.__getattr__('_' + item)]: the value of the input of that name read
    through [InputInfo.__call__], else the [OutputInfo] object of that
    name. *)
Definition getattr (item : string) : M t pyval :=
  fun self =>
    match OrderedDict.get item (inputs self) with
    | Some inp => (InputInfo.call false inp, self)
    | None =>
        match OrderedDict.get item (outputs self) with
        | Some _ => (Ok (VInfo item), self)
        | None => (Raise (AttributeError item), self)
        end
    end.

(** [f(value)] where [f] was obtained from [self._item]: an [OutputInfo]
    object of [self] is written through [OutputInfo.__call__]; the other
    values are not callable. *)
Definition call (f : pyval) (value : pyval) : M t unit :=
  fun self =>
    match f with
    | VInfo item =>
        match OrderedDict.get item (outputs self) with
        | None => (Raise (KeyError item), self)
        | Some out =>
            (Ok tt,
             with_outputs
               (OrderedDict.set item (OutputInfo.call value out) (outputs self))
               self)
        end
    | _ => (Raise TypeError, self)
    end.

End Node.

(** ** [SwitchNode] and [Loop]: the methods that touch [self] only *)

(** The loop shared by [SwitchNode.check] and [Loop.check]: slots named
    ['Control'] are skipped. *)
Fixpoint check_inputs_but_Control (l : list Info.t) : bool :=
  match l with
  | [] => true
  | inp :: l' =>
      if decide (Info.name inp = "Control") then check_inputs_but_Control l'
      else if negb (Info.valueSet inp) then false
      else check_inputs_but_Control l'
  end.

(** [SwitchNode.check] *)
Definition SwitchNode_check (self : Node.t) : result (option bool) :=
  if truthy (VInt (Node.inProgress self))
  then Ok (Some (check_inputs_but_Control
                   (OrderedDict.values (Node.inputs self))))
  else if Node.waiting self
  then match OrderedDict.get "Control" (Node.inputs self) with
       | None => Raise (KeyError "Control")
       | Some c => Ok (if Info.valueSet c then Some true else None)
       end
  else Ok None.

(** [SwitchNode.run] *)
Definition SwitchNode_run : M Node.t unit :=
  let! self := get_state in
  if negb (Node.waiting self) && truthy (VInt (Node.inProgress self))
  then
    let! sw := Node.getattr "Switch" in
    if truthy sw
    then let! f := Node.getattr "True" in
         let! v := Node.getattr "Start" in
         Node.call f v
    else let! f := Node.getattr "False" in
         let! v := Node.getattr "Start" in
         Node.call f v
  else if Node.waiting self
  then let! f := Node.getattr "Final" in
       let! v := Node.getattr "Control" in
       Node.call f v
  else ret tt.

(** [Loop.check] *)
Definition Loop_check (self : Node.t) : result (option bool) :=
  if 0 <? Node.inProgress self
  then
    if 1 <? Node.inProgress self
    then match OrderedDict.get "Control" (Node.inputs self) with
         | None => Raise (KeyError "Control")
         | Some c => Ok (if Info.valueSet c then Some true else None)
         end
    else Ok (Some (check_inputs_but_Control
                     (OrderedDict.values (Node.inputs self))))
  else Ok None.

(** [v + 1] for the values of the model: [int] and [bool] operands add,
    the others raise [TypeError]. *)
Definition add_one (v : pyval) : result Z :=
  match v with
  | VInt z => Ok (z + 1)
  | VBool b => Ok ((if b then 1 else 0) + 1)
  | _ => Raise TypeError
  end.

Definition lift {S A} (r : result A) : M S A := fun s => (r, s).

(** [Loop.run] *)
Definition Loop_run : M Node.t unit :=
  try_except_InputNotAvailable
    (let! self := get_state in
     if 1 <? Node.inProgress self
     then let! f := Node.getattr "LoopBody" in
          let! v := Node.getattr "Control" in
          Node.call f v
     else let! f := Node.getattr "Final" in
          let! v := Node.getattr "Control" in
          Node.call f v)
    (let! it := Node.getattr "Iterations" in
     let! p := lift (add_one it) in
     do! modify (Node.with_inProgress p) in
     do! modify (Node.with_fresh false) in
     let! f := Node.getattr "LoopBody" in
     let! v := Node.getattr "Start" in
     Node.call f v).

(** ** The graph and the world of node objects *)

(** Modelled from the spec: the [Graph] class is not part of [node.py]. A
    connection is the dictionary with the keys ['outputNode'],
    ['outputName'], ['inputNode'] and ['inputName'] that [node.py] reads;
    nodes are referred to by their [ID]. The graph is the list of its
    connections, [getConnectionsFrom] returns the edges leaving any output
    of a node and [getConnectionsOfOutput] the edges leaving one output
    slot, which is identified by its owner and its name. *)
Module Graph.

Record Connection : Type := mkConnection {
  outputNode : string;
  outputName : string;
  inputNode : string;
  inputName : string
}.

Definition t : Type := list Connection.

Definition getConnectionsFrom (g : t) (node : Node.t) : list Connection :=
  filter (fun con => outputNode con = Node.ID node) g.

Definition getConnectionsOfOutput (g : t) (output : Info.t)
    : list Connection :=
  filter (fun con => Some (outputNode con) = Info.owner output
                     /\ outputName con = Info.name output) g.

End Graph.

(** The node objects that exist, by [ID]. A method called on [self] reads
    and writes the object stored under [self], so a successor that happens
    to be the notifying node itself is the same object. *)
Abbreviation World := (gmap string Node.t).

(** The object behind a reference. *)
Definition lookup_node (id : string) : M World Node.t :=
  fun w =>
    match w !! id with
    | Some n => (Ok n, w)
    | None => (Raise InvalidReference, w)
    end.

(** A method of the node [id] run on the world. *)
Definition on_node {A} (id : string) (m : M Node.t A) : M World A :=
  fun w =>
    match w !! id with
    | Some n => let (r, n') := m n in (r, <[id := n']> w)
    | None => (Raise InvalidReference, w)
    end.

(** [self.outputs[outputName]] *)
Definition output_of (self : string) (outputName : string) : M World Info.t :=
  let! me := lookup_node self in
  match OrderedDict.get outputName (Node.outputs me) with
  | Some out => ret out
  | None => raise (KeyError outputName)
  end.

(** [self.inputs['Control'].reset()] *)
Definition reset_Control : M Node.t unit :=
  fun self =>
    match OrderedDict.get "Control" (Node.inputs self) with
    | None => (Raise (KeyError "Control"), self)
    | Some c =>
        (Ok tt,
         Node.with_inputs
           (OrderedDict.set "Control" (Info.reset c) (Node.inputs self)) self)
    end.

Section Notify.

Variable g : Graph.t.

(** [Node.notify] *)
Definition Node_notify (self : string) : M World unit :=
  let! me := lookup_node self in
  do! for_each (Graph.getConnectionsFrom g me) (fun con =>
        let! out := output_of self (Graph.outputName con) in
        if Info.valueSet out
        then
          on_node (Graph.inputNode con)
            (Node.setInput (Graph.inputName con) (Info.value out) false)
        else
          on_node (Graph.inputNode con)
            (Node.setInput (Graph.inputName con) (Info.default out) false))
  in
  do! on_node self
        (modify (fun n =>
           Node.with_inputs
             (OrderedDict.map_values Info.reset (Node.inputs n)) n)) in
  on_node self
    (modify (fun n => Node.with_inProgress (Node.inProgress n - 1) n)).

(** The propagation loop of [SwitchNode.notify] and of the last round of
    [Loop.notify]:
    [nextNode.setInput(nextInput, self.outputs[outputName].value)]. *)
Definition propagate (self : string) (output : Info.t) : M World unit :=
  for_each (Graph.getConnectionsOfOutput g output) (fun con =>
    let! out := output_of self (Graph.outputName con) in
    on_node (Graph.inputNode con)
      (Node.setInput (Graph.inputName con) (Info.value out) false)).

(** [SwitchNode.notify] *)
Definition SwitchNode_notify (self : string) : M World unit :=
  do! on_node self (modify (Node.with_inProgress 0)) in
  let! me := lookup_node self in
  if negb (Node.waiting me)
  then
    let! sw := on_node self (Node.getattr "Switch") in
    let! output := output_of self (if truthy sw then "True" else "False") in
    do! propagate self output in
    on_node self (modify (Node.with_waiting true))
  else
    let! output := output_of self "Final" in
    do! propagate self output in
    on_node self (modify (Node.with_waiting false)).

(** [Loop.notify] *)
Definition Loop_notify (self : string) : M World unit :=
  let! me := lookup_node self in
  do! (if 1 <? Node.inProgress me
       then
         let! output := output_of self "LoopBody" in
         for_each (Graph.getConnectionsOfOutput g output) (fun con =>
           do! on_node (Graph.inputNode con) (modify Node.prepare) in
           let! out := output_of self (Graph.outputName con) in
           on_node (Graph.inputNode con)
             (Node.setInput (Graph.inputName con) (Info.value out) true))
       else
         let! output := output_of self "Final" in
         propagate self output)
  in
  do! on_node self
        (modify (fun n => Node.with_inProgress (Node.inProgress n - 1) n)) in
  on_node self reset_Control.

End Notify.

(** ** Class construction and instantiation: [MetaNode], [Node.__init__]

    Here slot objects live in a heap and are referred to by address, so
    that sharing between a class, its subclasses and their instances is
    visible: [OrderedDict.copy] copies the dictionary but not the objects
    in it, [copy(inp)] makes a new object. *)

Module Decl.

(** The dictionary appended by [MetaNode.addInput] / [addOutput]. *)
Record t : Type := mk {
  name : string;
  varType : pytype;
  hints : option (list string);
  default : pyval;
  select : option (list pyval)
}.

End Decl.

Module Class.

Record t : Type := mk {
  __name__ : string;
  __inputs__ : list (string * nat);
  __outputs__ : list (string * nat)
}.

End Class.

Module Pin.

Record t : Type := mk {
  ID : string;
  name : string;
  info : nat;
  node : string
}.

End Pin.

(** A node object as [Node.__init__] leaves it; the slots are addresses of
    [Info] objects. The [graph] attribute is the graph the methods take as
    a parameter. *)
Module Object.

Record t : Type := mk {
  __pos__ : Z * Z;
  ID : string;
  inputs : list (string * nat);
  outputs : list (string * nat);
  inputPins : list (string * Pin.t);
  outputPins : list (string * Pin.t);
  inProgress : Z
}.

End Object.

Module Interp.

(** The heap of [Info] objects (an address is an index), the module-level
    dictionary [NODECLASSES] and the class attributes [MetaNode.inputs]
    and [MetaNode.outputs]. *)
Record t : Type := mk {
  heap : list Info.t;
  NODECLASSES : list (string * Class.t);
  inputs : list Decl.t;
  outputs : list Decl.t
}.

Definition with_heap (h : list Info.t) (st : t) : t :=
  {| heap := h; NODECLASSES := NODECLASSES st;
     inputs := inputs st; outputs := outputs st |}.

End Interp.

(** A new object. *)
Definition alloc (o : Info.t) : M Interp.t nat :=
  fun st =>
    (Ok (length (Interp.heap st)),
     Interp.with_heap (Interp.heap st ++ [o]) st).

Definition deref (a : nat) : M Interp.t Info.t :=
  fun st =>
    match Interp.heap st !! a with
    | Some o => (Ok o, st)
    | None => (Raise InvalidReference, st)
    end.

(** A method that mutates the object at [a]. *)
Definition update (a : nat) (f : Info.t -> Info.t) : M Interp.t unit :=
  fun st =>
    match Interp.heap st !! a with
    | Some o => (Ok tt, Interp.with_heap (<[a := f o]> (Interp.heap st)) st)
    | None => (Raise InvalidReference, st)
    end.

(** A statement of a class body. *)
Inductive stmt : Type :=
| Input (data : Decl.t)
| Output (data : Decl.t).

(** [MetaNode.__prepare__] *)
Definition MetaNode_prepare : M Interp.t unit :=
  modify (fun st =>
    {| Interp.heap := Interp.heap st;
       Interp.NODECLASSES := Interp.NODECLASSES st;
       Interp.inputs := []; Interp.outputs := [] |}).

(** [MetaNode.addInput] *)
Definition MetaNode_addInput (data : Decl.t) : M Interp.t unit :=
  modify (fun st =>
    {| Interp.heap := Interp.heap st;
       Interp.NODECLASSES := Interp.NODECLASSES st;
       Interp.inputs := Interp.inputs st ++ [data];
       Interp.outputs := Interp.outputs st |}).

(** [MetaNode.addOutput] *)
Definition MetaNode_addOutput (data : Decl.t) : M Interp.t unit :=
  modify (fun st =>
    {| Interp.heap := Interp.heap st;
       Interp.NODECLASSES := Interp.NODECLASSES st;
       Interp.inputs := Interp.inputs st;
       Interp.outputs := Interp.outputs st ++ [data] |}).

Definition exec (s : stmt) : M Interp.t unit :=
  match s with
  | Input data => MetaNode_addInput data
  | Output data => MetaNode_addOutput data
  end.

(** [InputInfo] or [OutputInfo] called with the keyword arguments of
    [data]: both run [Info.__init__] with [owner] left at its default. *)
Definition Info_of (data : Decl.t) : Info.t :=
  Info.init (Decl.name data) (Decl.varType data) (Decl.hints data)
    (Decl.default data) (Decl.select data) None.

(** [Node._addInput(data=data, cls=cls)] *)
Definition Node_addInput (cls : Class.t) (data : Decl.t) : M Interp.t Class.t :=
  let! inputInfo := alloc (Info_of data) in
  ret {| Class.__name__ := Class.__name__ cls;
         Class.__inputs__ :=
           OrderedDict.set (Decl.name data) inputInfo (Class.__inputs__ cls);
         Class.__outputs__ := Class.__outputs__ cls |}.

(** [Node._addOutput(data=data, cls=cls)] *)
Definition Node_addOutput (cls : Class.t) (data : Decl.t) : M Interp.t Class.t :=
  let! outputInfo := alloc (Info_of data) in
  ret {| Class.__name__ := Class.__name__ cls;
         Class.__inputs__ := Class.__inputs__ cls;
         Class.__outputs__ :=
           OrderedDict.set (Decl.name data) outputInfo (Class.__outputs__ cls) |}.

(** [NODECLASSES[name] = result]. The dictionary holds the class object,
    so it shows the attributes [__new__] assigns afterwards; the model
    registers the class once they are assigned. *)
Definition register (cls : Class.t) : M Interp.t unit :=
  modify (fun st =>
    {| Interp.heap := Interp.heap st;
       Interp.NODECLASSES :=
         OrderedDict.set (Class.__name__ cls) cls (Interp.NODECLASSES st);
       Interp.inputs := Interp.inputs st;
       Interp.outputs := Interp.outputs st |}).

(** [MetaNode.__new__(cls, name, bases, classdict)]. [base] is [bases[0]];
    [None] is a base without [__inputs__] ([object]), for which the
    [AttributeError] handlers run. *)
Definition MetaNode_new (name : string) (base : option Class.t)
    : M Interp.t Class.t :=
  let result :=
    {| Class.__name__ := name;
       Class.__inputs__ :=
         match base with Some b => Class.__inputs__ b | None => [] end;
       Class.__outputs__ :=
         match base with Some b => Class.__outputs__ b | None => [] end |} in
  let! st := get_state in
  let! result := fold_m Node_addInput (Interp.inputs st) result in
  let! result := fold_m Node_addOutput (Interp.outputs st) result in
  do! register result in
  ret result.

(** [class name(base): body] *)
Definition class_stmt (name : string) (base : option Class.t)
    (body : list stmt) : M Interp.t Class.t :=
  do! MetaNode_prepare in
  do! for_each body exec in
  MetaNode_new name base.

(** One round of the first loop of [Node.__init__]. *)
Definition init_input (self : Object.t) (template : nat) : M Interp.t Object.t :=
  let! o := deref template in
  let! inp := alloc o in
  do! update inp (Info.setOwner (Object.ID self)) in
  let! o := deref inp in
  let inpID := Object.ID self +:+ ":I" +:+ Info.name o in
  do! update inp (Info.setID inpID) in
  let newPin := {| Pin.ID := inpID; Pin.name := Info.name o;
                   Pin.info := inp; Pin.node := Object.ID self |} in
  ret {| Object.__pos__ := Object.__pos__ self;
         Object.ID := Object.ID self;
         Object.inputs := OrderedDict.set (Info.name o) inp (Object.inputs self);
         Object.outputs := Object.outputs self;
         Object.inputPins :=
           OrderedDict.set (Info.name o) newPin (Object.inputPins self);
         Object.outputPins := Object.outputPins self;
         Object.inProgress := Object.inProgress self |}.

(** One round of the second loop of [Node.__init__]. *)
Definition init_output (self : Object.t) (template : nat) : M Interp.t Object.t :=
  let! o := deref template in
  let! out := alloc o in
  do! update out (Info.setOwner (Object.ID self)) in
  let! o := deref out in
  let outID := Object.ID self +:+ ":O" +:+ Info.name o in
  do! update out (Info.setID outID) in
  let newPin := {| Pin.ID := outID; Pin.name := Info.name o;
                   Pin.info := out; Pin.node := Object.ID self |} in
  ret {| Object.__pos__ := Object.__pos__ self;
         Object.ID := Object.ID self;
         Object.inputs := Object.inputs self;
         Object.outputs := OrderedDict.set (Info.name o) out (Object.outputs self);
         Object.inputPins := Object.inputPins self;
         Object.outputPins :=
           OrderedDict.set (Info.name o) newPin (Object.outputPins self);
         Object.inProgress := Object.inProgress self |}.

(** [Node.__init__(self, nodeID, graph)] for an instance of [cls] *)
Definition Node_init (cls : Class.t) (nodeID : string) : M Interp.t Object.t :=
  let self :=
    {| Object.__pos__ := (0, 0); Object.ID := nodeID;
       Object.inputs := []; Object.outputs := [];
       Object.inputPins := []; Object.outputPins := [];
       Object.inProgress := 1 |} in
  let! self :=
    fold_m init_input (OrderedDict.values (Class.__inputs__ cls)) self in
  fold_m init_output (OrderedDict.values (Class.__outputs__ cls)) self.

(** [Node.getInputPin] *)
Definition Node_getInputPin (self : Object.t) (inputName : string)
    : result Pin.t :=
  match OrderedDict.get inputName (Object.inputPins self) with
  | Some pin => Ok pin
  | None => Raise (KeyError inputName)
  end.

(** [Node.getInputInfo]: the slot object, by its address. *)
Definition Node_getInputInfo (self : Object.t) (inputName : string)
    : result nat :=
  match OrderedDict.get inputName (Object.inputs self) with
  | Some a => Ok a
  | None => Raise (KeyError inputName)
  end.

(** [Node.getOutputInfo] *)
Definition Node_getOutputInfo (self : Object.t) (outputName : string)
    : result nat :=
  match OrderedDict.get outputName (Object.outputs self) with
  | Some a => Ok a
  | None => Raise (KeyError outputName)
  end.

(** [Node.getInputID] *)
Definition Node_getInputID (self : Object.t) (inputName : string) : string :=
  Object.ID self +:+ ":I" +:+ inputName.

(** [Node.getOutputID] *)
Definition Node_getOutputID (self : Object.t) (outputName : string) : string :=
  Object.ID self +:+ ":O" +:+ outputName.

(** [any([hint.startswith(text) for hint in inp.hints])] *)
Definition hint_matches (text : string) (inp : Info.t) : bool :=
  existsb (String.prefix text) (Info.hints inp).

(** The slot objects at the addresses [addrs], in order. *)
Definition deref_all (addrs : list nat) : M Interp.t (list Info.t) :=
  fold_m (fun acc a => let! o := deref a in ret (acc ++ [o])) addrs [].

(** [Node.matchInputHint]: [True], or the [None] of a body that falls off
    its end. *)
Definition Node_matchInputHint (cls : Class.t) (text : string)
    : M Interp.t pyval :=
  let! inps := deref_all (OrderedDict.values (Class.__inputs__ cls)) in
  if existsb (hint_matches text) inps then ret (VBool true) else ret VNone.

(** [Node.matchOutputHint] *)
Definition Node_matchOutputHint (cls : Class.t) (text : string)
    : M Interp.t pyval :=
  let! outs := deref_all (OrderedDict.values (Class.__outputs__ cls)) in
  if existsb (hint_matches text) outs then ret (VBool true) else ret VNone.

(** [Node.matchHint]: [cls.matchInputHint(text) or
    cls.matchOutputHint(text)]; the right operand is evaluated only when
    the left one is falsy. *)
Definition Node_matchHint (cls : Class.t) (text : string) : M Interp.t pyval :=
  let! a := Node_matchInputHint cls text in
  if truthy a then ret a else Node_matchOutputHint cls text.

(** ** What the specification calls things *)

(** "The default is empty": no default was declared, so [default] is the
    [''] that [Info.__init__] puts there, or it is [None]. *)
Definition empty_default (v : pyval) : Prop := v = VStr "" \/ v = VNone.

(** "The slot has a value available, either explicitly set or via a
    non-empty default". *)
Definition available (inp : Info.t) : Prop :=
  Info.valueSet inp = true \/ ~ empty_default (Info.default inp).

(** The slots a [Loop] instance gets from its class: inputs [Start],
    [Control] (from [ControlNode]) and [Iterations], outputs [Final] and
    [LoopBody]. *)
Record Loop_slots (n : Node.t) (start control iterations final loopBody : Info.t)
    : Prop := {
  has_Start : OrderedDict.get "Start" (Node.inputs n) = Some start;
  has_Control : OrderedDict.get "Control" (Node.inputs n) = Some control;
  has_Iterations :
    OrderedDict.get "Iterations" (Node.inputs n) = Some iterations;
  no_input_Final : OrderedDict.get "Final" (Node.inputs n) = None;
  no_input_LoopBody : OrderedDict.get "LoopBody" (Node.inputs n) = None;
  has_Final : OrderedDict.get "Final" (Node.outputs n) = Some final;
  has_LoopBody : OrderedDict.get "LoopBody" (Node.outputs n) = Some loopBody
}.

(** ** Notions used to state the properties, and example scenarios *)

(** A [TestNode] instance: one input [strInput] without default. *)
Definition TestNode_instance (nodeID : string) (p : Z) : Node.t :=
  {| Node.ID := nodeID;
     Node.inputs :=
       [("strInput",
         Info.setOwner nodeID (Info.init "strInput" TStr None (VStr "") None None))];
     Node.outputs :=
       [("strOutput",
         Info.setOwner nodeID (Info.init "strOutput" TStr None (VStr "") None None))];
     Node.inProgress := p; Node.waiting := false; Node.fresh := None |}.

(** An input or output slot of the node [nodeID], holding [v] if any. *)
Definition slot (nodeID name : string) (ty : pytype) (v : option pyval)
    : Info.t :=
  let s := Info.setOwner nodeID (Info.init name ty None (VStr "") None None) in
  match v with
  | Some x => Info.with_value true x s
  | None => s
  end.

(** A [Loop] instance with the given contents of [Start], [Control] and
    [Iterations]. *)
Definition Loop_instance (nodeID : string) (p : Z)
    (start control iterations : option pyval) : Node.t :=
  {| Node.ID := nodeID;
     Node.inputs :=
       [("Start", slot nodeID "Start" TObject start);
        ("Control", slot nodeID "Control" TObject control);
        ("Iterations", slot nodeID "Iterations" TInt iterations)];
     Node.outputs :=
       [("Final", slot nodeID "Final" TObject None);
        ("LoopBody", slot nodeID "LoopBody" TObject None)];
     Node.inProgress := p; Node.waiting := false; Node.fresh := None |}.

(** The input slot a connection ends in. *)
Definition target (con : Graph.Connection) : string * string :=
  (Graph.inputNode con, Graph.inputName con).

(** The input slot [i] of the node [m], if both exist. *)
Definition input_slot (w : World) (m i : string) : option Info.t :=
  match w !! m with
  | Some n => OrderedDict.get i (Node.inputs n)
  | None => None
  end.

(** The world in which the input slot [i] of [m] has become [inp]. *)
Definition put_input (m i : string) (inp : Info.t) (w : World) : World :=
  match w !! m with
  | Some n =>
      <[m := Node.with_inputs (OrderedDict.set i inp (Node.inputs n)) n]> w
  | None => w
  end.

(** Two states of a node that differ at most in what its input slots
    hold. *)
Definition same_frame (n n' : Node.t) : Prop :=
  Node.ID n = Node.ID n'
  /\ Node.outputs n = Node.outputs n'
  /\ Node.inProgress n = Node.inProgress n'
  /\ Node.waiting n = Node.waiting n'
  /\ Node.fresh n = Node.fresh n'
  /\ OrderedDict.keys (Node.inputs n) = OrderedDict.keys (Node.inputs n').

Definition same_frames (w w' : World) : Prop :=
  forall m, option_Forall2 same_frame (w !! m) (w' !! m).

(** The propagation loops have one shape: every connection writes
    [F out], for its output slot [out], into its target, without
    override. *)
Definition push (self : string) (F : Info.t -> pyval)
    (conns : list Graph.Connection) : M World unit :=
  for_each conns (fun con =>
    let! out := output_of self (Graph.outputName con) in
    on_node (Graph.inputNode con)
      (Node.setInput (Graph.inputName con) (F out) false)).

(** The plain-node scenario: [N] has input [X] and output [Y], [M] has
    input [Z], and [Y] is connected to [M.Z]. *)
Definition plain_N : Node.t :=
  {| Node.ID := "N";
     Node.inputs := [("X", slot "N" "X" TInt (Some (VInt 5)))];
     Node.outputs := [("Y", slot "N" "Y" TInt (Some (VInt 10)))];
     Node.inProgress := 1; Node.waiting := false; Node.fresh := None |}.

Definition plain_M : Node.t :=
  {| Node.ID := "M";
     Node.inputs := [("Z", slot "M" "Z" TInt None)];
     Node.outputs := [];
     Node.inProgress := 1; Node.waiting := false; Node.fresh := None |}.

Definition plain_world : World := <["N" := plain_N]> (<["M" := plain_M]> ∅).

Definition plain_graph : Graph.t :=
  [ {| Graph.outputNode := "N"; Graph.outputName := "Y";
       Graph.inputNode := "M"; Graph.inputName := "Z" |} ].

(** A [SwitchNode] instance: inputs [Start], [Control], [Switch]; outputs
    [Final], [True], [False]. *)
Definition Switch_instance (nodeID : string) (p : Z) (waiting : bool)
    (start control switch final true_ false_ : option pyval) : Node.t :=
  {| Node.ID := nodeID;
     Node.inputs :=
       [("Start", slot nodeID "Start" TObject start);
        ("Control", slot nodeID "Control" TObject control);
        ("Switch", slot nodeID "Switch" TBool switch)];
     Node.outputs :=
       [("Final", slot nodeID "Final" TObject final);
        ("True", slot nodeID "True" TObject true_);
        ("False", slot nodeID "False" TObject false_)];
     Node.inProgress := p; Node.waiting := waiting; Node.fresh := None |}.

(** The Switch scenario after the dispatch [run]: [Switch] is true, [Start]
    is [7] and was written to [True]; [T] hangs on [True], [F] on
    [False]. *)
Definition switch_S : Node.t :=
  Switch_instance "S" 1 false (Some (VInt 7)) None (Some (VBool true))
    None (Some (VInt 7)) None.

Definition switch_T : Node.t :=
  {| Node.ID := "T"; Node.inputs := [("In", slot "T" "In" TObject None)];
     Node.outputs := []; Node.inProgress := 1; Node.waiting := false;
     Node.fresh := None |}.

Definition switch_F : Node.t :=
  {| Node.ID := "F"; Node.inputs := [("In", slot "F" "In" TObject None)];
     Node.outputs := []; Node.inProgress := 1; Node.waiting := false;
     Node.fresh := None |}.

Definition switch_world : World :=
  <["S" := switch_S]> (<["T" := switch_T]> (<["F" := switch_F]> ∅)).

Definition switch_graph : Graph.t :=
  [ {| Graph.outputNode := "S"; Graph.outputName := "True";
       Graph.inputNode := "T"; Graph.inputName := "In" |};
    {| Graph.outputNode := "S"; Graph.outputName := "False";
       Graph.inputNode := "F"; Graph.inputName := "In" |} ].

(** The loop of the iterating phase of [Loop.notify]. *)
Definition reenter (self : string) (conns : list Graph.Connection)
    : M World unit :=
  for_each conns (fun con =>
    do! on_node (Graph.inputNode con) (modify Node.prepare) in
    let! out := output_of self (Graph.outputName con) in
    on_node (Graph.inputNode con)
      (Node.setInput (Graph.inputName con) (Info.value out) true)).

(** The Loop scenario: [L] has written [0] to [LoopBody] and [9] to
    [Final]; [B], the body, hangs on [LoopBody] and still holds the value
    of the previous iteration; [E] hangs on [Final]. *)
Definition loop_L (p : Z) : Node.t :=
  Node.with_outputs
    [("Final", slot "L" "Final" TObject (Some (VInt 9)));
     ("LoopBody", slot "L" "LoopBody" TObject (Some (VInt 0)))]
    (Loop_instance "L" p None (Some (VInt 8)) (Some (VInt 3))).

Definition loop_B : Node.t :=
  {| Node.ID := "B";
     Node.inputs := [("In", slot "B" "In" TObject (Some (VInt 5)))];
     Node.outputs := []; Node.inProgress := 0; Node.waiting := false;
     Node.fresh := None |}.

Definition loop_E (v : option pyval) : Node.t :=
  {| Node.ID := "E"; Node.inputs := [("In", slot "E" "In" TObject v)];
     Node.outputs := []; Node.inProgress := 1; Node.waiting := false;
     Node.fresh := None |}.

Definition loop_world (p : Z) (e : option pyval) : World :=
  <["L" := loop_L p]> (<["B" := loop_B]> (<["E" := loop_E e]> ∅)).

Definition loop_graph : Graph.t :=
  [ {| Graph.outputNode := "L"; Graph.outputName := "LoopBody";
       Graph.inputNode := "B"; Graph.inputName := "In" |};
    {| Graph.outputNode := "L"; Graph.outputName := "Final";
       Graph.inputNode := "E"; Graph.inputName := "In" |} ].

(** The declarations a class body collects. *)
Fixpoint input_decls (body : list stmt) : list Decl.t :=
  match body with
  | [] => []
  | Input data :: body' => data :: input_decls body'
  | Output _ :: body' => input_decls body'
  end.

Fixpoint output_decls (body : list stmt) : list Decl.t :=
  match body with
  | [] => []
  | Input _ :: body' => output_decls body'
  | Output data :: body' => data :: output_decls body'
  end.

(** The dictionary [d] after the declarations [decls] were added to it,
    their slot objects being allocated from the address [a] on. *)
Fixpoint add_decls (a : nat) (decls : list Decl.t) (d : list (string * nat))
    : list (string * nat) :=
  match decls with
  | [] => d
  | data :: decls' =>
      add_decls (S a) decls' (OrderedDict.set (Decl.name data) a d)
  end.

(** The slot dictionary of an instance after the clones of the templates
    [tmpl] were entered, the clones being allocated from [a] on. *)
Fixpoint add_clones (a : nat) (tmpl : list Info.t) (d : list (string * nat))
    : list (string * nat) :=
  match tmpl with
  | [] => d
  | o :: tmpl' => add_clones (S a) tmpl' (OrderedDict.set (Info.name o) a d)
  end.

(** The clone [Node.__init__] makes of a template for the node [nodeID];
    [tag] is [":I"] for an input and [":O"] for an output. *)
Definition clone (nodeID tag : string) (o : Info.t) : Info.t :=
  Info.setID (nodeID +:+ tag +:+ Info.name o) (Info.setOwner nodeID o).

(** The templates at the addresses [addrs]. *)
Definition templates (h : list Info.t) (addrs : list nat) (objs : list Info.t)
    : Prop :=
  Forall2 (fun a o => h !! a = Some o) addrs objs.

(** Every address of a dictionary is below [n]. *)
Definition below (n : nat) (d : list (string * nat)) : Prop :=
  Forall (fun a => (a < n)%nat) (OrderedDict.values d).

(** The example of the specification: [A : int] with default [0] and
    [B : str] in the type, [C : bool] in the subtype. *)
Definition decl_A : Decl.t :=
  {| Decl.name := "A"; Decl.varType := TInt; Decl.hints := None;
     Decl.default := VInt 0; Decl.select := None |}.

Definition decl_B : Decl.t :=
  {| Decl.name := "B"; Decl.varType := TStr; Decl.hints := None;
     Decl.default := VStr ""; Decl.select := None |}.

Definition decl_C : Decl.t :=
  {| Decl.name := "C"; Decl.varType := TBool; Decl.hints := None;
     Decl.default := VStr ""; Decl.select := None |}.

Definition decl_Out : Decl.t :=
  {| Decl.name := "Out"; Decl.varType := TObject; Decl.hints := None;
     Decl.default := VStr ""; Decl.select := None |}.

Definition empty_interp : Interp.t :=
  {| Interp.heap := []; Interp.NODECLASSES := [];
     Interp.inputs := []; Interp.outputs := [] |}.

(** A loop whose [LoopBody] is wired straight back to its own [Control]. *)
Definition selfloop_graph : Graph.t :=
  [ {| Graph.outputNode := "L"; Graph.outputName := "LoopBody";
       Graph.inputNode := "L"; Graph.inputName := "Control" |} ].

Definition selfloop_world : World := <["L" := loop_L 4]> ∅.

(** The slots a [SwitchNode] instance gets from its class: inputs [Start],
    [Control] (from [ControlNode]) and [Switch], outputs [Final], [True]
    and [False]. *)
Record Switch_slots (n : Node.t)
    (start control switch final true_ false_ : Info.t) : Prop := {
  sw_Start : OrderedDict.get "Start" (Node.inputs n) = Some start;
  sw_Control : OrderedDict.get "Control" (Node.inputs n) = Some control;
  sw_Switch : OrderedDict.get "Switch" (Node.inputs n) = Some switch;
  sw_no_input_Final : OrderedDict.get "Final" (Node.inputs n) = None;
  sw_no_input_True : OrderedDict.get "True" (Node.inputs n) = None;
  sw_no_input_False : OrderedDict.get "False" (Node.inputs n) = None;
  sw_Final : OrderedDict.get "Final" (Node.outputs n) = Some final;
  sw_True : OrderedDict.get "True" (Node.outputs n) = Some true_;
  sw_False : OrderedDict.get "False" (Node.outputs n) = Some false_
}.

(** Every slot of the dictionary is filed under its own [name], as
    [Node.__init__] files it. *)
Definition named (d : list (string * Info.t)) : Prop :=
  Forall (fun kv => Info.name (snd kv) = fst kv) d.

(** The Switch scenario at the rejoin: [S] is waiting, a branch has set
    [Control] to [8] and [run] has written it to [Final]; [E] hangs on
    [Final]. *)
Definition rejoin_S : Node.t :=
  Switch_instance "S" 0 true (Some (VInt 7)) (Some (VInt 8))
    (Some (VBool true)) (Some (VInt 8)) (Some (VInt 7)) None.

Definition rejoin_world : World :=
  <["S" := rejoin_S]> (<["E" := loop_E None]> ∅).

Definition rejoin_graph : Graph.t :=
  [ {| Graph.outputNode := "S"; Graph.outputName := "Final";
       Graph.inputNode := "E"; Graph.inputName := "In" |} ].

(** The plain-node scenario in which [M.Z] already holds a value. *)
Definition busy_world : World :=
  <["M" := Node.with_inputs [("Z", slot "M" "Z" TInt (Some (VInt 1)))]
             plain_M]> plain_world.

(** The slots [slots] of the node [nodeID] and its pins [pins] go
    together: the same names in the same order, and under each name the
    pin that carries the identity made of [nodeID], [tag] and the name and
    refers to the slot object, which carries the name, the owner and the
    same identity. *)
Definition pinned (tag : string) (h : list Info.t) (nodeID : string)
    (slots : list (string * nat)) (pins : list (string * Pin.t)) : Prop :=
  OrderedDict.keys pins = OrderedDict.keys slots
  /\ forall k a,
       OrderedDict.get k slots = Some a ->
       OrderedDict.get k pins
       = Some {| Pin.ID := nodeID +:+ tag +:+ k; Pin.name := k;
                 Pin.info := a; Pin.node := nodeID |}
       /\ exists o,
            h !! a = Some o
            /\ Info.name o = k
            /\ Info.owner o = Some nodeID
            /\ Info.ID o = Some (nodeID +:+ tag +:+ k).

(** The class of the example once its statement has run:
    [class T(Node): Input(A); Output(Out); Input(B)]. *)
Definition example_state : Interp.t :=
  snd (class_stmt "T" None [Input decl_A; Output decl_Out; Input decl_B]
         empty_interp).

Definition example_class : Class.t :=
  {| Class.__name__ := "T";
     Class.__inputs__ := [("A", 0%nat); ("B", 1%nat)];
     Class.__outputs__ := [("Out", 2%nat)] |}.






(** "The value [v] was written to the slot": [after] holds [v] and is
    marked as written, and is otherwise the slot [before]. *)
Definition written (v : pyval) (before after : Info.t) : Prop :=
  Info.valueSet after = true
  /\ Info.value after = v
  /\ Info.name after = Info.name before
  /\ Info.varType after = Info.varType before
  /\ Info.hints after = Info.hints before
  /\ Info.default after = Info.default before
  /\ Info.select after = Info.select before
  /\ Info.owner after = Info.owner before
  /\ Info.ID after = Info.ID before.

(** A round of a plain node, as the specification uses the word:
    [prepare()], then the writes that [run()] makes to outputs, given as
    pairs of an output name and a value, then [notify()]. *)
Definition round (g : Graph.t) (self : string)
    (writes : list (string * pyval)) : M World unit :=
  do! on_node self (modify Node.prepare) in
  do! for_each writes (fun kv =>
        on_node self (Node.call (VInfo (fst kv)) (snd kv))) in
  Node_notify g self.






(** * Properties *)

(** ** Dictionaries *)

Section OrderedDictFacts.

Context {A : Type}.
Implicit Types (d : list (string * A)) (k : string) (v : A).

Lemma get_set_eq d k v : OrderedDict.get k (OrderedDict.set k v d) = Some v.
Proof.
  induction d as [|[k' v'] d IH]; simpl.
  - by rewrite decide_True.
  - destruct (decide (k' = k)) as [->|Hne]; simpl.
    + by rewrite decide_True.
    + by rewrite decide_False.
Qed.

Lemma get_set_ne d k k' v :
  k <> k' -> OrderedDict.get k' (OrderedDict.set k v d) = OrderedDict.get k' d.
Proof.
  intros Hne. induction d as [|[k0 v0] d IH]; simpl.
  - by rewrite decide_False.
  - destruct (decide (k0 = k)) as [->|Hk]; simpl.
    + by rewrite !decide_False.
    + destruct (decide (k0 = k')); [done | apply IH].
Qed.

Lemma keys_set_present d k v :
  is_Some (OrderedDict.get k d) ->
  OrderedDict.keys (OrderedDict.set k v d) = OrderedDict.keys d.
Proof.
  induction d as [|[k0 v0] d IH]; simpl; intros [x Hx]; [done|].
  destruct (decide (k0 = k)) as [->|Hk]; simpl; [done|].
  f_equal. apply IH. eauto.
Qed.

Lemma keys_set_absent d k v :
  OrderedDict.get k d = None ->
  OrderedDict.keys (OrderedDict.set k v d) = OrderedDict.keys d ++ [k].
Proof.
  induction d as [|[k0 v0] d IH]; simpl; [done|].
  destruct (decide (k0 = k)) as [->|Hk]; simpl; [done|].
  intros Hd. f_equal. by apply IH.
Qed.

Lemma get_None_not_in d k :
  OrderedDict.get k d = None <-> k ∉ OrderedDict.keys d.
Proof.
  induction d as [|[k0 v0] d IH]; simpl.
  - split; [intros _; apply not_elem_of_nil | done].
  - rewrite not_elem_of_cons. destruct (decide (k0 = k)) as [->|Hk].
    + split; [done | intros [? _]; done].
    + rewrite IH. split; [intros ?; split; [congruence | done] | tauto].
Qed.

Lemma get_map_values (f : A -> A) d k :
  OrderedDict.get k (OrderedDict.map_values f d) = f <$> OrderedDict.get k d.
Proof.
  induction d as [|[k0 v0] d IH]; simpl; [done|].
  destruct (decide (k0 = k)); [done | apply IH].
Qed.

Lemma keys_map_values (f : A -> A) d :
  OrderedDict.keys (OrderedDict.map_values f d) = OrderedDict.keys d.
Proof.
  unfold OrderedDict.keys, OrderedDict.map_values.
  rewrite map_map. by apply map_ext.
Qed.

Lemma values_map_values (f : A -> A) d :
  OrderedDict.values (OrderedDict.map_values f d)
  = map f (OrderedDict.values d).
Proof.
  unfold OrderedDict.values, OrderedDict.map_values. by rewrite !map_map.
Qed.

End OrderedDictFacts.

(** ** Slots *)

Lemma empty_default_falsy v : empty_default v -> truthy v = false.
Proof. by intros [-> | ->]. Qed.

(** C9: [reset] clears [valueSet] and [value] and leaves [default] (and the
    rest of the slot) as it was; resetting a reset slot changes nothing. *)
Theorem Info_reset_spec (s : Info.t) :
  Info.valueSet (Info.reset s) = false
  /\ Info.value (Info.reset s) = VNone
  /\ Info.default (Info.reset s) = Info.default s
  /\ Info.name (Info.reset s) = Info.name s
  /\ Info.reset (Info.reset s) = Info.reset s.
Proof. by destruct s. Qed.

(** C6: on a slot that holds no value, [set(v)] succeeds and [get()] then
    returns [v]; a second [set] without override raises [InputAlreadySet];
    [set(v2, override=True)] then succeeds and [get()] returns [v2]. *)
Theorem InputInfo_set_then_get (s : Info.t) (v v' v2 : pyval) :
  Info.valueSet s = false ->
  let (r1, s1) := InputInfo.set v false s in
  let (r2, s2) := InputInfo.set v' false s1 in
  let (r3, s3) := InputInfo.set v2 true s2 in
  r1 = Ok tt /\ InputInfo.call false s1 = Ok v
  /\ r2 = Raise InputAlreadySet
  /\ r3 = Ok tt /\ InputInfo.call false s3 = Ok v2.
Proof. destruct s; simpl; intros ->; by cbn. Qed.

Lemma InputInfo_set_then_get_witness :
  let s := Info.init "strInput" TStr None (VStr "") None None in
  let (r1, s1) := InputInfo.set (VStr "a") false s in
  let (r2, s2) := InputInfo.set (VStr "b") false s1 in
  let (r3, s3) := InputInfo.set (VStr "c") true s2 in
  r1 = Ok tt /\ InputInfo.call false s1 = Ok (VStr "a")
  /\ r2 = Raise InputAlreadySet
  /\ r3 = Ok tt /\ InputInfo.call false s3 = Ok (VStr "c").
Proof.
  exact (InputInfo_set_then_get
           (Info.init "strInput" TStr None (VStr "") None None)
           (VStr "a") (VStr "b") (VStr "c") eq_refl).
Defined.

(** C10: a [set] without override on a slot that already holds a value
    raises [InputAlreadySet] and leaves the slot as it was. *)
Theorem InputInfo_set_failure_atomic (s : Info.t) (v : pyval) :
  Info.valueSet s = true ->
  InputInfo.set v false s = (Raise InputAlreadySet, s).
Proof. unfold InputInfo.set. by intros ->. Qed.

Lemma InputInfo_set_failure_atomic_witness :
  let s := OutputInfo.call (VInt 5) (Info.init "X" TInt None (VStr "") None None) in
  InputInfo.set (VInt 7) false s = (Raise InputAlreadySet, s).
Proof.
  exact (InputInfo_set_failure_atomic
           (OutputInfo.call (VInt 5)
              (Info.init "X" TInt None (VStr "") None None))
           (VInt 7) eq_refl).
Defined.

(** A default that is not empty is not always returned: a declared default
    of [0] is not empty, yet reading the slot raises
    [InputNotAvailable]. *)
Lemma InputInfo_get_nonempty_default_counterexample :
  ~ (forall s : Info.t,
       Info.valueSet s = false ->
       ~ empty_default (Info.default s) ->
       InputInfo.call false s = Ok (Info.default s)).
Proof.
  intros H.
  specialize (H (Info.init "A" TInt None (VInt 0) None None) eq_refl).
  assert (Hne : ~ empty_default (VInt 0)) by (intros [?|?]; discriminate).
  specialize (H Hne). discriminate H.
Qed.

(** What [InputInfo.__call__] does with the default of a slot that holds
    no value: a truthy default is what [get()] returns, with or without
    [allowMissing]; with a falsy default (in particular the empty one)
    [get()] raises [InputNotAvailable] and [get(allowMissing=True)] returns
    [None]. *)
Lemma InputInfo_get_default (s : Info.t) :
  Info.valueSet s = false ->
  (truthy (Info.default s) = true ->
     forall allowMissing, InputInfo.call allowMissing s = Ok (Info.default s))
  /\ (truthy (Info.default s) = false ->
        InputInfo.call false s = Raise InputNotAvailable
        /\ InputInfo.call true s = Ok VNone)
  /\ (empty_default (Info.default s) ->
        InputInfo.call false s = Raise InputNotAvailable
        /\ InputInfo.call true s = Ok VNone).
Proof.
  intros Hs. unfold InputInfo.call. rewrite Hs. split; [|split].
  - by intros ->.
  - by intros ->.
  - intros He. by rewrite (empty_default_falsy _ He).
Qed.

Lemma InputInfo_get_default_witness :
  (forall allowMissing,
     InputInfo.call allowMissing
       (Info.init "Input" TStr None (VStr "TestNode") None None)
     = Ok (VStr "TestNode"))
  /\ InputInfo.call false (Info.init "A" TInt None (VInt 0) None None)
     = Raise InputNotAvailable
  /\ InputInfo.call true (Info.init "B" TStr None (VStr "") None None)
     = Ok VNone.
Proof.
  split; [|split].
  - exact (proj1 (InputInfo_get_default
             (Info.init "Input" TStr None (VStr "TestNode") None None)
             eq_refl) eq_refl).
  - exact (proj1 (proj1 (proj2 (InputInfo_get_default
             (Info.init "A" TInt None (VInt 0) None None) eq_refl))
             eq_refl)).
  - exact (proj2 (proj2 (proj2 (InputInfo_get_default
             (Info.init "B" TStr None (VStr "") None None) eq_refl))
             (or_introl eq_refl))).
Defined.

(** C7: on a slot that holds no value and whose default is not empty,
    [get()] should return the default and not raise. [InputInfo.__call__]
    fails to at the input slot the specification itself gives as an
    example, [A : int] with default [0], as created by [Info.__init__]: its
    test [elif self.default:] takes the default [0] (and likewise [False])
    for a missing one, although a missing default is [''], so that [get()]
    raises [InputNotAvailable] and [get(allowMissing=True)] returns [None]
    instead of [0]. [Node.notify] reads the default of an output without
    such a test. With a default that is truthy the default is returned, and
    with the empty default [get()] raises, as the claim says. *)
Theorem InputInfo_get_default_zero :
  Info.valueSet (Info_of decl_A) = false
  /\ Info.default (Info_of decl_A) = VInt 0
  /\ ~ empty_default (Info.default (Info_of decl_A))
  /\ InputInfo.call false (Info_of decl_A) = Raise InputNotAvailable
  /\ InputInfo.call true (Info_of decl_A) = Ok VNone
  /\ InputInfo.call false
       (Info.init "D" TBool None (VBool false) None None)
     = Raise InputNotAvailable
  /\ InputInfo.call false
       (Info.init "Input" TStr None (VStr "TestNode") None None)
     = Ok (VStr "TestNode")
  /\ InputInfo.call false (Info_of decl_B) = Raise InputNotAvailable
  /\ InputInfo.call true (Info_of decl_B) = Ok VNone.
Proof.
  repeat split; try reflexivity.
  intros [H|H]; discriminate H.
Qed.

(** ** [Node.check] and [Node.prepare] *)

Lemma check_inputs_true l :
  Node.check_inputs l = true <-> Forall (fun i => Info.valueSet i = true) l.
Proof.
  induction l as [|i l IH]; simpl.
  - split; [constructor | done].
  - destruct (Info.valueSet i) eqn:Hi; simpl.
    + rewrite IH. split; [by constructor | by inversion 1].
    + split; [done | inversion 1; congruence].
Qed.

Lemma check_inputs_false l :
  Node.check_inputs l = false <-> Exists (fun i => Info.valueSet i = false) l.
Proof.
  induction l as [|i l IH]; simpl.
  - split; [done | inversion 1].
  - destruct (Info.valueSet i) eqn:Hi; simpl.
    + rewrite IH. split; [by right | inversion 1; [congruence | done]].
    + split; [by left | done].
Qed.

Lemma truthy_int z : truthy (VInt z) = true <-> z <> 0.
Proof. simpl. destruct (Z.eqb_spec z 0); simpl; split; (done || lia). Qed.

Lemma prepare_inputs_reset n :
  Forall (fun i => Info.valueSet i = false /\ Info.value i = VNone)
    (OrderedDict.values (Node.inputs (Node.prepare n))).
Proof.
  simpl. rewrite values_map_values. apply Forall_forall.
  intros i [j [-> _]]%list_elem_of_fmap. by destruct j.
Qed.

(** What [Node.check] answers, case by case. *)
Lemma Node_check_cases (n : Node.t) :
  (Node.check n = Some true
   <-> Node.inProgress n <> 0
       /\ Forall (fun i => Info.valueSet i = true)
            (OrderedDict.values (Node.inputs n)))
  /\ (Node.check n = Some false
      <-> Node.inProgress n <> 0
          /\ Exists (fun i => Info.valueSet i = false)
               (OrderedDict.values (Node.inputs n)))
  /\ (Node.check n = None <-> Node.inProgress n = 0).
Proof.
  unfold Node.check.
  destruct (truthy (VInt (Node.inProgress n))) eqn:Ht.
  - apply truthy_int in Ht. rewrite <- check_inputs_true, <- check_inputs_false.
    split; [|split].
    + split; [intros [= ->]; by split | intros [_ ->]; done].
    + split; [intros [= ->]; by split | intros [_ ->]; done].
    + split; [done | intros; done].
  - assert (Node.inProgress n = 0) as Hz.
    { destruct (decide (Node.inProgress n = 0)) as [|Hne]; [done|].
      apply truthy_int in Hne. congruence. }
    split; [|split].
    + split; [done | intros [? _]; done].
    + split; [done | intros [? _]; done].
    + done.
Qed.

(** "Returns false otherwise" fails in one case: once
    [executionsRemaining] is [0] the call does not return [False], it
    returns [None]. *)
Lemma Node_check_false_otherwise_counterexample :
  ~ (forall n : Node.t,
       ~ (0 < Node.inProgress n
          /\ Forall available (OrderedDict.values (Node.inputs n))) ->
       Node.check n = Some false).
Proof.
  intros H.
  assert (Node.check {| Node.ID := "N"; Node.inputs := []; Node.outputs := [];
                        Node.inProgress := 0; Node.waiting := false;
                        Node.fresh := None |} = Some false) as Hc.
  { apply H. simpl. intros [Hlt _]. lia. }
  discriminate Hc.
Qed.

(** What [Node.check] does: it returns [True] only if
    [executionsRemaining] is not [0] (so it is positive whenever it is not
    negative) and every input slot was set explicitly, hence has a value
    available; when [executionsRemaining] is not [0] and some slot was not
    set explicitly, in particular when some slot has no value available, it
    returns [False]; when [executionsRemaining] is [0] it returns [None].
    [prepare()] followed by [check()] returns [False] on a node one of
    whose inputs lacks a default. *)
Lemma Node_check_spec (n : Node.t) :
  (Node.check n = Some true ->
     Node.inProgress n <> 0
     /\ (0 <= Node.inProgress n -> 0 < Node.inProgress n)
     /\ Forall (fun i => Info.valueSet i = true)
          (OrderedDict.values (Node.inputs n))
     /\ Forall available (OrderedDict.values (Node.inputs n)))
  /\ (Node.inProgress n <> 0 ->
      Exists (fun i => Info.valueSet i = false)
        (OrderedDict.values (Node.inputs n)) ->
      Node.check n = Some false)
  /\ (Node.inProgress n <> 0 ->
      ~ Forall available (OrderedDict.values (Node.inputs n)) ->
      Node.check n = Some false)
  /\ (Node.inProgress n = 0 -> Node.check n = None)
  /\ (Exists (fun i => empty_default (Info.default i))
        (OrderedDict.values (Node.inputs n)) ->
      Node.check (Node.prepare n) = Some false).
Proof.
  destruct (Node_check_cases n) as (Ht & Hf & Hn).
  split; [|split; [|split; [|split]]].
  - intros [Hnz Hall]%Ht. repeat split; [done | lia | done |].
    eapply Forall_impl; [exact Hall|]. intros i Hi. by left.
  - intros Hnz Hex. apply Hf. by split.
  - intros Hnz Hna. apply Hf. split; [done|].
    apply check_inputs_false.
    destruct (Node.check_inputs (OrderedDict.values (Node.inputs n))) eqn:Hc;
      [|done].
    exfalso. apply Hna. apply check_inputs_true in Hc.
    eapply Forall_impl; [exact Hc|]. intros i Hi. by left.
  - by intros ?%Hn.
  - intros Hex. destruct (Node_check_cases (Node.prepare n)) as (_ & Hf' & _).
    apply Hf'. split; [done|].
    pose proof (prepare_inputs_reset n) as Hr.
    destruct (OrderedDict.values (Node.inputs (Node.prepare n))) eqn:Hv.
    + simpl in Hv. rewrite values_map_values in Hv.
      apply fmap_nil_inv in Hv. rewrite Hv in Hex. inversion Hex.
    + left. by inversion Hr as [|? ? [? _]].
Qed.

Lemma Node_check_spec_witness :
  Node.check (Node.prepare (TestNode_instance "n" 0)) = Some false
  /\ Node.check (TestNode_instance "n" 1) = Some false
  /\ Node.check (TestNode_instance "n" 0) = None.
Proof.
  split; [|split].
  - destruct (Node_check_spec (TestNode_instance "n" 0)) as (_ & _ & _ & _ & H).
    apply H. simpl. left. simpl. by left.
  - destruct (Node_check_spec (TestNode_instance "n" 1)) as (_ & _ & H & _).
    apply H; [done|].
    simpl. intros Hall. inversion Hall as [|? ? [Hs | Hd] _]; [done|].
    apply Hd. by left.
  - destruct (Node_check_spec (TestNode_instance "n" 0)) as (_ & _ & _ & H & _).
    by apply H.
Defined.

(** C1: [check()] should return [False] whenever it does not return
    [True]. [Node.check] fails to once [executionsRemaining] is [0], the
    state [notify()] leaves a node in after its run: the body is one
    [if self.inProgress:] without an [else], so the call falls off its end
    and returns [None], although the method is annotated [-> bool] and its
    other refusal, an input that was not set, is a [return False]. Here
    [N] is the plain node after its [notify()], and the [TestNode]
    instances show the same fall-through next to the refusal that does
    return [False], also right after [prepare()]. *)
Theorem Node_check_counter_zero :
  fst (Node_notify plain_graph "N" plain_world) = Ok tt
  /\ Node.inProgress <$> (snd (Node_notify plain_graph "N" plain_world) !! "N")
     = Some 0
  /\ Node.check <$> (snd (Node_notify plain_graph "N" plain_world) !! "N")
     = Some None
  /\ Node.check (TestNode_instance "n" 0) = None
  /\ Node.check (TestNode_instance "n" 1) = Some false
  /\ Node.check (Node.prepare (TestNode_instance "n" 0)) = Some false.
Proof. repeat split; vm_compute; reflexivity. Qed.

(** ** [Loop.run] *)

(** C3: [Loop.run] by phase. When reading [Control] fails (no value, no
    usable default) it sets [executionsRemaining] to [Iterations + 1] and
    writes the value of [Start] to [LoopBody]; when [Control] can be read
    and [executionsRemaining > 1] it writes that value to [LoopBody]; when
    [executionsRemaining = 1] it writes it to [Final] and leaves
    [LoopBody] alone. "Writes [v] to a slot": afterwards the slot holds
    [v] and is marked as written, the rest of the slot being as before;
    the other output is the object it was. *)
Theorem Loop_run_spec (n : Node.t)
    (start control iterations final loopBody : Info.t) :
  Loop_slots n start control iterations final loopBody ->
  (forall k v,
     InputInfo.call false control = Raise InputNotAvailable ->
     InputInfo.call false iterations = Ok (VInt k) ->
     InputInfo.call false start = Ok v ->
     exists n' lb',
       Loop_run n = (Ok tt, n')
       /\ Node.inProgress n' = k + 1
       /\ OrderedDict.get "LoopBody" (Node.outputs n') = Some lb'
       /\ lb' = OutputInfo.call v loopBody
       /\ written v loopBody lb'
       /\ OrderedDict.get "Final" (Node.outputs n') = Some final
       /\ Node.inputs n' = Node.inputs n)
  /\ (forall v,
        InputInfo.call false control = Ok v ->
        1 < Node.inProgress n ->
        exists n' lb',
          Loop_run n = (Ok tt, n')
          /\ Node.inProgress n' = Node.inProgress n
          /\ OrderedDict.get "LoopBody" (Node.outputs n') = Some lb'
          /\ lb' = OutputInfo.call v loopBody
          /\ written v loopBody lb'
          /\ OrderedDict.get "Final" (Node.outputs n') = Some final
          /\ Node.inputs n' = Node.inputs n)
  /\ (forall v,
        InputInfo.call false control = Ok v ->
        Node.inProgress n = 1 ->
        exists n' f',
          Loop_run n = (Ok tt, n')
          /\ Node.inProgress n' = 1
          /\ OrderedDict.get "Final" (Node.outputs n') = Some f'
          /\ f' = OutputInfo.call v final
          /\ written v final f'
          /\ OrderedDict.get "LoopBody" (Node.outputs n') = Some loopBody
          /\ Node.inputs n' = Node.inputs n).
Proof.
  intros [Hs Hc Hi HnF HnL HF HL].
  assert (Hget_in : forall item inp (self : Node.t),
            Node.inputs self = Node.inputs n ->
            OrderedDict.get item (Node.inputs n) = Some inp ->
            Node.getattr item self = (InputInfo.call false inp, self)).
  { intros item inp self Hin Hg. unfold Node.getattr. by rewrite Hin, Hg. }
  assert (Hget_out : forall item o (self : Node.t),
            Node.inputs self = Node.inputs n ->
            Node.outputs self = Node.outputs n ->
            OrderedDict.get item (Node.inputs n) = None ->
            OrderedDict.get item (Node.outputs n) = Some o ->
            Node.getattr item self = (Ok (VInfo item), self)).
  { intros item o self Hin Hout Hg Ho. unfold Node.getattr.
    by rewrite Hin, Hout, Hg, Ho. }
  split; [|split].
  - intros k v Hcr Hir Hsr.
    unfold Loop_run, try_except_InputNotAvailable.
    assert ((let! self := get_state in
             if 1 <? Node.inProgress self
             then let! f := Node.getattr "LoopBody" in
                  let! v := Node.getattr "Control" in Node.call f v
             else let! f := Node.getattr "Final" in
                  let! v := Node.getattr "Control" in Node.call f v) n
            = (Raise InputNotAvailable, n)) as Hbody.
    { unfold bind, get_state. destruct (1 <? Node.inProgress n).
      - rewrite (Hget_out "LoopBody" loopBody n), (Hget_in "Control" control n),
          Hcr; done.
      - rewrite (Hget_out "Final" final n), (Hget_in "Control" control n),
          Hcr; done. }
    rewrite Hbody. unfold bind, modify, lift.
    rewrite (Hget_in "Iterations" iterations n), Hir by done. simpl.
    rewrite (Hget_out "LoopBody" loopBody), (Hget_in "Start" start), Hsr
      by done.
    unfold Node.call. simpl. rewrite HL.
    eexists _, _; split; [reflexivity|]. simpl.
    rewrite get_set_eq, get_set_ne by done.
    by repeat split.
  - intros v Hcr Hp.
    unfold Loop_run, try_except_InputNotAvailable, bind, get_state.
    apply Z.ltb_lt in Hp. rewrite Hp.
    rewrite (Hget_out "LoopBody" loopBody n), (Hget_in "Control" control n),
      Hcr by done.
    unfold Node.call. rewrite HL.
    eexists _, _; split; [reflexivity|]. simpl.
    rewrite get_set_eq, get_set_ne by done.
    by repeat split.
  - intros v Hcr Hp.
    unfold Loop_run, try_except_InputNotAvailable, bind, get_state.
    rewrite Hp. simpl.
    rewrite (Hget_out "Final" final n), (Hget_in "Control" control n),
      Hcr by done.
    unfold Node.call. rewrite HF.
    eexists _, _; split; [reflexivity|]. simpl.
    rewrite get_set_eq, get_set_ne by done. rewrite Hp.
    by repeat split.
Qed.

Lemma Loop_instance_slots nodeID p start control iterations :
  Loop_slots (Loop_instance nodeID p start control iterations)
    (slot nodeID "Start" TObject start)
    (slot nodeID "Control" TObject control)
    (slot nodeID "Iterations" TInt iterations)
    (slot nodeID "Final" TObject None)
    (slot nodeID "LoopBody" TObject None).
Proof. by constructor. Defined.

Lemma Loop_run_spec_witness :
  (exists n',
     Loop_run (Loop_instance "L" 1 (Some (VInt 0)) None (Some (VInt 3)))
     = (Ok tt, n')
     /\ Node.inProgress n' = 3 + 1
     /\ OrderedDict.get "LoopBody" (Node.outputs n')
        = Some (slot "L" "LoopBody" TObject (Some (VInt 0)))
     /\ OrderedDict.get "Final" (Node.outputs n')
        = Some (slot "L" "Final" TObject None))
  /\ (exists n',
        Loop_run (Loop_instance "L" 3 None (Some (VInt 8)) None) = (Ok tt, n')
        /\ OrderedDict.get "LoopBody" (Node.outputs n')
           = Some (slot "L" "LoopBody" TObject (Some (VInt 8)))
        /\ OrderedDict.get "Final" (Node.outputs n')
           = Some (slot "L" "Final" TObject None))
  /\ (exists n',
        Loop_run (Loop_instance "L" 1 None (Some (VInt 9)) None) = (Ok tt, n')
        /\ OrderedDict.get "Final" (Node.outputs n')
           = Some (slot "L" "Final" TObject (Some (VInt 9)))
        /\ OrderedDict.get "LoopBody" (Node.outputs n')
           = Some (slot "L" "LoopBody" TObject None)).
Proof.
  split; [|split].
  - destruct (proj1 (Loop_run_spec _ _ _ _ _ _
                       (Loop_instance_slots "L" 1 (Some (VInt 0)) None
                          (Some (VInt 3))))
                3 (VInt 0) eq_refl eq_refl eq_refl)
      as (n' & lb' & Hr & Hp & Hb & Hlb & _ & Hf & _).
    exists n'. rewrite Hb, Hlb. by repeat split.
  - destruct (proj1 (proj2 (Loop_run_spec _ _ _ _ _ _
                       (Loop_instance_slots "L" 3 None (Some (VInt 8)) None)))
                (VInt 8) eq_refl eq_refl)
      as (n' & lb' & Hr & _ & Hb & Hlb & _ & Hf & _).
    exists n'. rewrite Hb, Hlb. by repeat split.
  - destruct (proj2 (proj2 (Loop_run_spec _ _ _ _ _ _
                       (Loop_instance_slots "L" 1 None (Some (VInt 9)) None)))
                (VInt 9) eq_refl eq_refl)
      as (n' & f' & Hr & _ & Hf & Hf' & _ & Hb & _).
    exists n'. rewrite Hf, Hf'. by repeat split.
Defined.

(** ** Worlds: reading and writing the input slots of a successor *)

Lemma same_frame_refl n : same_frame n n.
Proof. by repeat split. Qed.

Lemma same_frame_trans n1 n2 n3 :
  same_frame n1 n2 -> same_frame n2 n3 -> same_frame n1 n3.
Proof.
  intros (?&?&?&?&?&?) (?&?&?&?&?&?). repeat split; congruence.
Qed.

Lemma same_frames_refl w : same_frames w w.
Proof.
  intros m. destruct (w !! m); constructor. apply same_frame_refl.
Qed.

Lemma same_frames_trans w1 w2 w3 :
  same_frames w1 w2 -> same_frames w2 w3 -> same_frames w1 w3.
Proof.
  intros H12 H23 m. specialize (H12 m). specialize (H23 m).
  destruct H12 as [n1 n2 Hn|]; inversion H23; subst; constructor.
  eapply same_frame_trans; eauto.
Qed.

Lemma same_frames_lookup w w' m n :
  same_frames w w' -> w !! m = Some n ->
  exists n', w' !! m = Some n' /\ same_frame n n'.
Proof.
  intros H Hm. specialize (H m). rewrite Hm in H.
  inversion H; subst. eauto.
Qed.

Lemma same_frames_lookup_None w w' m :
  same_frames w w' -> w !! m = None -> w' !! m = None.
Proof.
  intros H Hm. specialize (H m). rewrite Hm in H. by inversion H.
Qed.

Lemma input_slot_put_eq w m i inp :
  is_Some (w !! m) -> input_slot (put_input m i inp w) m i = Some inp.
Proof.
  intros [n Hn]. unfold input_slot, put_input. rewrite Hn.
  rewrite lookup_insert_eq. simpl. apply get_set_eq.
Qed.

Lemma input_slot_put_ne w m i m' i' inp :
  (m, i) <> (m', i') ->
  input_slot (put_input m i inp w) m' i' = input_slot w m' i'.
Proof.
  intros Hne. unfold input_slot, put_input.
  destruct (w !! m) as [n|] eqn:Hn; [|done].
  destruct (decide (m = m')) as [<-|Hm].
  - rewrite lookup_insert_eq, Hn. simpl. apply get_set_ne. congruence.
  - by rewrite lookup_insert_ne.
Qed.

Lemma lookup_put_ne w m i m' inp :
  m <> m' -> put_input m i inp w !! m' = w !! m'.
Proof.
  intros Hne. unfold put_input. destruct (w !! m); [|done].
  by rewrite lookup_insert_ne.
Qed.

Lemma put_input_same_frames w m i inp :
  is_Some (input_slot w m i) -> same_frames w (put_input m i inp w).
Proof.
  unfold input_slot, put_input. intros [x Hx] m'.
  destruct (w !! m) as [n|] eqn:Hn; [|done].
  destruct (decide (m = m')) as [<-|Hm].
  - rewrite lookup_insert_eq, Hn. constructor. repeat split; simpl.
    symmetry. apply keys_set_present. eauto.
  - rewrite lookup_insert_ne by done.
    destruct (w !! m'); constructor. apply same_frame_refl.
Qed.

Lemma on_node_setInput w m i v override inp :
  input_slot w m i = Some inp ->
  Info.valueSet inp && negb override = false ->
  on_node m (Node.setInput i v override) w
  = (Ok tt, put_input m i (Info.with_value true v inp) w).
Proof.
  unfold input_slot, on_node, put_input, Node.setInput, InputInfo.set.
  destruct (w !! m) as [n|]; [|done]. by intros -> ->.
Qed.

Lemma on_node_setInput_already w m i v inp :
  input_slot w m i = Some inp ->
  Info.valueSet inp = true ->
  fst (on_node m (Node.setInput i v false) w) = Raise InputAlreadySet.
Proof.
  unfold input_slot, on_node, Node.setInput, InputInfo.set.
  destruct (w !! m) as [n|]; [|done]. by intros -> ->.
Qed.

Lemma output_of_ok w self me item out :
  w !! self = Some me ->
  OrderedDict.get item (Node.outputs me) = Some out ->
  output_of self item w = (Ok out, w).
Proof.
  intros Hme Hout. unfold output_of, bind, lookup_node. by rewrite Hme, Hout.
Qed.

Lemma on_node_modify w m n (f : Node.t -> Node.t) :
  w !! m = Some n -> on_node m (modify f) w = (Ok tt, <[m := f n]> w).
Proof. intros Hm. unfold on_node, modify. by rewrite Hm. Qed.

Lemma for_each_ext {S A} (l : list A) (f f' : A -> M S unit) s :
  (forall x s, f x s = f' x s) -> for_each l f s = for_each l f' s.
Proof.
  intros Hff. revert s. induction l as [|x l IH]; intros s; simpl; [done|].
  unfold bind. rewrite Hff. destruct (f' x s) as [[[]|e] s']; [apply IH | done].
Qed.

(** What such a loop leaves behind when every target exists, holds no
    value yet and is the target of one connection only. *)
Lemma push_ok self F outs conns : forall w,
  (exists me, w !! self = Some me /\ Node.outputs me = outs) ->
  (forall con, con ∈ conns ->
     is_Some (OrderedDict.get (Graph.outputName con) outs)) ->
  (forall con, con ∈ conns ->
     exists inp, input_slot w (Graph.inputNode con) (Graph.inputName con)
                 = Some inp
                 /\ Info.valueSet inp = false) ->
  NoDup (target <$> conns) ->
  exists w',
    push self F conns w = (Ok tt, w')
    /\ same_frames w w'
    /\ (forall con, con ∈ conns ->
          exists out inp,
            OrderedDict.get (Graph.outputName con) outs = Some out
            /\ input_slot w (Graph.inputNode con) (Graph.inputName con)
               = Some inp
            /\ input_slot w' (Graph.inputNode con) (Graph.inputName con)
               = Some (Info.with_value true (F out) inp))
    /\ (forall m i, (m, i) ∉ target <$> conns ->
          input_slot w' m i = input_slot w m i).
Proof.
  induction conns as [|con l IH]; intros w Hself Houts Htgt Hnd.
  - exists w. split; [done|]. split; [apply same_frames_refl|].
    split; [|done]. intros con Hin. by apply elem_of_nil in Hin.
  - destruct Hself as (me & Hme & Hmo).
    destruct (Houts con) as [out Hout]; [left|].
    destruct (Htgt con) as (inp & Hinp & Hunset); [left|].
    rewrite fmap_cons in Hnd. apply NoDup_cons in Hnd as [Hfresh Hnd].
    set (w1 := put_input (Graph.inputNode con) (Graph.inputName con)
                 (Info.with_value true (F out) inp) w).
    assert (Hstep : (let! out := output_of self (Graph.outputName con) in
                     on_node (Graph.inputNode con)
                       (Node.setInput (Graph.inputName con) (F out) false)) w
                    = (Ok tt, w1)).
    { unfold bind. rewrite (output_of_ok w self me _ out) by congruence.
      apply on_node_setInput; [done | by rewrite Hunset]. }
    assert (Hfr1 : same_frames w w1).
    { apply put_input_same_frames. rewrite Hinp. eauto. }
    destruct (IH w1) as (w' & Hrun & Hfr & Hset & Hother).
    + destruct (same_frames_lookup _ _ _ _ Hfr1 Hme) as (me1 & Hme1 & Hf).
      exists me1. split; [done|]. destruct Hf as (_ & <- & _). done.
    + intros c Hc. apply Houts. by right.
    + intros c Hc. destruct (Htgt c) as (inp' & Hinp' & Hu'); [by right|].
      exists inp'. split; [|done]. unfold w1.
      rewrite input_slot_put_ne; [done|].
      intros Heq. apply Hfresh. change (target con = target c) in Heq.
      rewrite Heq. apply list_elem_of_fmap. eauto.
    + done.
    + exists w'. split; [|split; [|split]].
      * unfold push. simpl. unfold bind at 1. rewrite Hstep. exact Hrun.
      * eapply same_frames_trans; eauto.
      * intros c [->|Hc]%elem_of_cons.
        -- exists out, inp. repeat split; [done..|].
           rewrite Hother by done. unfold w1. apply input_slot_put_eq.
           unfold input_slot in Hinp.
           destruct (w !! Graph.inputNode con); [eauto | done].
        -- destruct (Hset c Hc) as (out' & inp' & Ho' & Hi' & Hf').
           exists out', inp'. repeat split; [done| |done].
           rewrite <- Hi'. unfold w1. symmetry. apply input_slot_put_ne.
           intros Heq. apply Hfresh. change (target con = target c) in Heq.
           rewrite Heq. apply list_elem_of_fmap. eauto.
      * intros m i Hni. rewrite fmap_cons, not_elem_of_cons in Hni.
        destruct Hni as [Hne Hni]. rewrite Hother by done.
        unfold w1. apply input_slot_put_ne. by intros Heq.
Qed.

Lemma input_slot_insert_ne (w : World) m m' i n :
  m <> m' -> input_slot (<[m := n]> w) m' i = input_slot w m' i.
Proof. intros Hne. unfold input_slot. by rewrite lookup_insert_ne. Qed.

(** ** [Node.notify] *)




(** Nothing resets an output slot: [prepare] and [notify] reset inputs
    only, so [valueSet] of an output, once true, stays true from round to
    round and [notify] keeps pushing the value last written. *)
Lemma Node_prepare_keeps_outputs (n : Node.t) :
  Node.outputs (Node.prepare n) = Node.outputs n.
Proof. reflexivity. Qed.


Lemma input_slot_insert_same_inputs (w : World) m n n' m' i :
  w !! m = Some n -> Node.inputs n' = Node.inputs n ->
  input_slot (<[m := n']> w) m' i = input_slot w m' i.
Proof.
  intros Hm Hin. unfold input_slot. destruct (decide (m = m')) as [<-|Hne].
  - by rewrite lookup_insert_eq, Hm, Hin.
  - by rewrite lookup_insert_ne.
Qed.

Lemma on_node_getattr_input (w : World) m n item inp :
  w !! m = Some n ->
  OrderedDict.get item (Node.inputs n) = Some inp ->
  on_node m (Node.getattr item) w = (InputInfo.call false inp, w).
Proof.
  intros Hm Hg. unfold on_node, Node.getattr. rewrite Hm, Hg.
  by rewrite insert_id.
Qed.

Lemma elem_of_getConnectionsOfOutput g out con :
  con ∈ Graph.getConnectionsOfOutput g out ->
  Graph.outputName con = Info.name out.
Proof.
  unfold Graph.getConnectionsOfOutput. intros [[_ H] _]%list_elem_of_filter.
  exact H.
Qed.

(** ** [SwitchNode.notify] *)

(** C2, as the specification states it, fails: the dispatch [notify] does
    not leave [executionsRemaining] as it was, it sets it to [0]. *)
Lemma SwitchNode_notify_inProgress_counterexample :
  ~ (forall (g : Graph.t) (w w' : World) (self : string) (me me' : Node.t),
       w !! self = Some me ->
       Node.waiting me = false ->
       SwitchNode_notify g self w = (Ok tt, w') ->
       w' !! self = Some me' ->
       Node.inProgress me' = Node.inProgress me).
Proof.
  intros H.
  pose (r := SwitchNode_notify switch_graph "S" switch_world).
  assert (Hr : fst r = Ok tt) by (vm_compute; reflexivity).
  assert (Hs : Node.inProgress <$> (snd r !! "S") = Some 0)
    by (vm_compute; reflexivity).
  destruct (snd r !! "S") as [me'|] eqn:Hme'; [|done].
  injection Hs as Hs.
  assert (Node.inProgress me' = Node.inProgress switch_S) as Heq.
  { apply (H switch_graph switch_world (snd r) "S"); [done..| |done].
    unfold r in *. destruct (SwitchNode_notify switch_graph "S" switch_world).
    simpl in Hr. by rewrite Hr. }
  rewrite Hs in Heq. discriminate Heq.
Qed.

(** C2, amended: in the dispatch phase [SwitchNode.notify] pushes the
    value of the selected output ([True] when [Switch] is truthy, [False]
    otherwise) into the targets of that output's connections, leaves every
    other input slot of every node as it was (so nothing of the other
    output is propagated), sets [waiting] to true, and sets
    [executionsRemaining] to [0]. *)
Theorem SwitchNode_notify_dispatch (g : Graph.t) (w : World) (self : string)
    (me : Node.t) (switch out : Info.t) (b : pyval) :
  let selected := if truthy b then "True" else "False" in
  w !! self = Some me ->
  Node.waiting me = false ->
  OrderedDict.get "Switch" (Node.inputs me) = Some switch ->
  InputInfo.call false switch = Ok b ->
  OrderedDict.get selected (Node.outputs me) = Some out ->
  Info.name out = selected ->
  (forall con, con ∈ Graph.getConnectionsOfOutput g out ->
     exists inp, input_slot w (Graph.inputNode con) (Graph.inputName con)
                 = Some inp
                 /\ Info.valueSet inp = false) ->
  NoDup (target <$> Graph.getConnectionsOfOutput g out) ->
  exists w' me',
    SwitchNode_notify g self w = (Ok tt, w')
    /\ w' !! self = Some me'
    /\ Node.waiting me' = true
    /\ Node.inProgress me' = 0
    /\ Node.outputs me' = Node.outputs me
    /\ (forall con, con ∈ Graph.getConnectionsOfOutput g out ->
          exists inp inp',
            input_slot w (Graph.inputNode con) (Graph.inputName con)
            = Some inp
            /\ InputInfo.set (Info.value out) false inp = (Ok tt, inp')
            /\ input_slot w' (Graph.inputNode con) (Graph.inputName con)
               = Some inp')
    /\ (forall m i, (m, i) ∉ target <$> Graph.getConnectionsOfOutput g out ->
          input_slot w' m i = input_slot w m i).
Proof.
  intros selected Hme Hwait Hsw Hb Hout Hname Htgt Hnd.
  set (me0 := Node.with_inProgress 0 me).
  set (w0 := <[self := me0]> w).
  assert (Hme0 : w0 !! self = Some me0) by apply lookup_insert_eq.
  assert (Hslot0 : forall m i, input_slot w0 m i = input_slot w m i).
  { intros m i. by apply (input_slot_insert_same_inputs w self me). }
  destruct (push_ok self Info.value (Node.outputs me)
              (Graph.getConnectionsOfOutput g out) w0)
    as (w1 & Hrun & Hfr & Hset & Hother).
  { by exists me0. }
  { intros con Hcon. rewrite (elem_of_getConnectionsOfOutput _ _ _ Hcon).
    rewrite Hname. eauto. }
  { intros con Hcon. rewrite Hslot0. by apply Htgt. }
  { done. }
  destruct (same_frames_lookup _ _ _ _ Hfr Hme0)
    as (me1 & Hme1 & _ & Ho1 & Hp1 & _ & _ & _).
  exists (<[self := Node.with_waiting true me1]> w1),
         (Node.with_waiting true me1).
  split; [|split; [|split; [|split; [|split; [|split]]]]].
  - unfold SwitchNode_notify. unfold bind at 1.
    rewrite (on_node_modify w self me) by done. fold me0. fold w0.
    unfold bind at 1. unfold lookup_node at 1. rewrite Hme0.
    change (Node.waiting me0) with (Node.waiting me). rewrite Hwait. simpl.
    unfold bind at 1.
    rewrite (on_node_getattr_input w0 self me0 "Switch" switch), Hb by done.
    fold selected. unfold bind at 1.
    rewrite (output_of_ok w0 self me0 selected out) by done.
    unfold bind at 1.
    change (propagate g self out)
      with (push self Info.value (Graph.getConnectionsOfOutput g out)).
    rewrite Hrun. by apply on_node_modify.
  - apply lookup_insert_eq.
  - done.
  - simpl. by rewrite <- Hp1.
  - simpl. by rewrite <- Ho1.
  - intros con Hcon. destruct (Hset con Hcon) as (out' & inp & Ho & Hi & Hf).
    destruct (Htgt con Hcon) as (inp0 & Hi0 & Hu0).
    rewrite Hslot0 in Hi. assert (inp0 = inp) as -> by congruence.
    rewrite (elem_of_getConnectionsOfOutput _ _ _ Hcon), Hname in Ho.
    assert (out' = out) as -> by congruence.
    exists inp, (Info.with_value true (Info.value out) inp).
    split; [done|]. split.
    + unfold InputInfo.set. by rewrite Hu0.
    + by rewrite (input_slot_insert_same_inputs w1 self me1).
  - intros m i Hni.
    rewrite (input_slot_insert_same_inputs w1 self me1) by done.
    rewrite Hother by done. apply Hslot0.
Qed.

Lemma switch_connections_True :
  Graph.getConnectionsOfOutput switch_graph
    (slot "S" "True" TObject (Some (VInt 7)))
  = [Graph.mkConnection "S" "True" "T" "In"].
Proof. reflexivity. Defined.

Lemma SwitchNode_notify_dispatch_witness :
  exists w' me',
    SwitchNode_notify switch_graph "S" switch_world = (Ok tt, w')
    /\ w' !! "S" = Some me'
    /\ Node.waiting me' = true
    /\ Node.inProgress me' = 0
    /\ input_slot w' "T" "In" = Some (slot "T" "In" TObject (Some (VInt 7)))
    /\ input_slot w' "F" "In" = Some (slot "F" "In" TObject None).
Proof.
  destruct (SwitchNode_notify_dispatch switch_graph switch_world "S" switch_S
              (slot "S" "Switch" TBool (Some (VBool true)))
              (slot "S" "True" TObject (Some (VInt 7))) (VBool true))
    as (w' & me' & Hrun & Hme' & Hw & Hp & _ & Hset & Hother);
    try reflexivity.
  - rewrite switch_connections_True.
    intros con ->%list_elem_of_singleton. eexists. split; reflexivity.
  - rewrite switch_connections_True. apply NoDup_singleton.
  - exists w', me'. repeat split; [done..| |].
    + destruct (Hset (Graph.mkConnection "S" "True" "T" "In"))
        as (inp & inp' & Hi & Hs & Hf).
      * rewrite switch_connections_True. by apply list_elem_of_singleton.
      * simpl in Hi, Hf. rewrite Hf. f_equal.
        injection Hi as <-. by injection Hs as <-.
    + rewrite Hother; [reflexivity|].
      rewrite switch_connections_True. simpl.
      intros Hin%list_elem_of_singleton. discriminate Hin.
Defined.

(** Why the dispatch zeroes the counter: [SwitchNode.check] consults
    [waiting] and [Control] only when [executionsRemaining] is [0]. *)
Lemma SwitchNode_check_rejoin (n : Node.t) (c : Info.t) :
  OrderedDict.get "Control" (Node.inputs n) = Some c ->
  Node.waiting n = true ->
  (Node.inProgress n = 0 ->
     SwitchNode_check n = Ok (if Info.valueSet c then Some true else None))
  /\ (Node.inProgress n <> 0 ->
        SwitchNode_check n
        = Ok (Some (check_inputs_but_Control
                      (OrderedDict.values (Node.inputs n))))).
Proof.
  intros Hc Hw. unfold SwitchNode_check. split.
  - intros ->. simpl. by rewrite Hw, Hc.
  - intros Hnz. apply truthy_int in Hnz. by rewrite Hnz.
Qed.

(** ** [Loop.notify] *)

Lemma get_is_Some_keys {A} (d : list (string * A)) k :
  is_Some (OrderedDict.get k d) <-> k ∈ OrderedDict.keys d.
Proof.
  rewrite <- not_eq_None_Some, get_None_not_in.
  destruct (decide (k ∈ OrderedDict.keys d)); tauto.
Qed.

Lemma map_values_set (f : Info.t -> Info.t) d k x y :
  OrderedDict.get k d = Some y -> f x = f y ->
  OrderedDict.map_values f (OrderedDict.set k x d) = OrderedDict.map_values f d.
Proof.
  induction d as [|[k0 v0] d IH]; simpl; [done|].
  destruct (decide (k0 = k)) as [->|Hk]; simpl.
  - intros [= ->] ->. done.
  - intros Hg Hf. f_equal. by apply IH.
Qed.

Lemma map_values_reset_idemp d :
  OrderedDict.map_values Info.reset (OrderedDict.map_values Info.reset d)
  = OrderedDict.map_values Info.reset d.
Proof.
  unfold OrderedDict.map_values. rewrite map_map. apply map_ext.
  intros [k v]. by destruct v.
Qed.

(** [prepare()] followed by [setInput(i, v, override=True)] succeeds on a
    node that has the input [i], and a later [prepare()] forgets it. *)
Lemma prepare_setInput n i v inp :
  OrderedDict.get i (Node.inputs n) = Some inp ->
  exists n',
    Node.setInput i v true (Node.prepare n) = (Ok tt, n')
    /\ Node.prepare n' = Node.prepare n
    /\ Node.inProgress n' = 1
    /\ OrderedDict.keys (Node.inputs n') = OrderedDict.keys (Node.inputs n)
    /\ OrderedDict.get i (Node.inputs n')
       = Some (Info.with_value true v (Info.reset inp)).
Proof.
  intros Hinp. unfold Node.setInput, InputInfo.set. simpl.
  rewrite get_map_values, Hinp. simpl.
  eexists. split; [reflexivity|]. repeat split; simpl.
  - unfold Node.prepare, Node.with_inputs, Node.with_inProgress. simpl.
    f_equal.
    rewrite (map_values_set _ _ _ _ (Info.reset inp)).
    + apply map_values_reset_idemp.
    + by rewrite get_map_values, Hinp.
    + reflexivity.
  - rewrite keys_set_present, keys_map_values; [done|].
    rewrite get_map_values, Hinp. by eexists.
  - by rewrite get_set_eq.
Qed.

(** After that loop, a successor is in the state that [prepare()] followed
    by the forced [setInput] of the last connection that reaches it make
    of its initial state. *)
Lemma reenter_ok self me lb conns : forall w : World,
  w !! self = Some me ->
  (forall con, con ∈ conns ->
     Graph.inputNode con <> self
     /\ OrderedDict.get (Graph.outputName con) (Node.outputs me) = Some lb
     /\ exists nm,
          w !! Graph.inputNode con = Some nm
          /\ is_Some (OrderedDict.get (Graph.inputName con) (Node.inputs nm))) ->
  exists w',
    reenter self conns w = (Ok tt, w')
    /\ w' !! self = Some me
    /\ (forall m, m ∉ Graph.inputNode <$> conns -> w' !! m = w !! m)
    /\ (forall l1 con l2, conns = l1 ++ con :: l2 ->
          (forall c, c ∈ l2 -> Graph.inputNode c <> Graph.inputNode con) ->
          forall nm, w !! Graph.inputNode con = Some nm ->
          exists nm',
            Node.setInput (Graph.inputName con) (Info.value lb) true
              (Node.prepare nm) = (Ok tt, nm')
            /\ w' !! Graph.inputNode con = Some nm').
Proof.
  induction conns as [|c l IH]; intros w Hme Hpre.
  - exists w. split; [done|]. split; [done|]. split; [done|].
    intros [|? ?] con l2 Heq; discriminate Heq.
  - destruct (Hpre c) as (Hne & Hlb & nmc & Hnmc & [inp Hinp]); [left|].
    destruct (prepare_setInput nmc (Graph.inputName c) (Info.value lb) inp Hinp)
      as (nm1 & Hset1 & Hprep1 & _ & Hkeys1 & _).
    set (w1 := <[Graph.inputNode c := nm1]> w).
    assert (Hstep :
      (do! on_node (Graph.inputNode c) (modify Node.prepare) in
       let! out := output_of self (Graph.outputName c) in
       on_node (Graph.inputNode c)
         (Node.setInput (Graph.inputName c) (Info.value out) true)) w
      = (Ok tt, w1)).
    { unfold bind. rewrite (on_node_modify w _ nmc) by done.
      rewrite (output_of_ok _ self me _ lb);
        [|by rewrite lookup_insert_ne | done].
      unfold on_node. rewrite lookup_insert_eq, Hset1.
      unfold w1. by rewrite insert_insert_eq. }
    assert (Hme1 : w1 !! self = Some me)
      by (unfold w1; by rewrite lookup_insert_ne).
    destruct (IH w1 Hme1) as (w' & Hrun & Hme' & Hother & Hlast).
    { intros con Hcon.
      destruct (Hpre con) as (Hne' & Hlb' & nm & Hnm & Hsome); [by right|].
      split; [done|]. split; [done|].
      destruct (decide (Graph.inputNode c = Graph.inputNode con)) as [Heq|Hd].
      - exists nm1. split; [unfold w1; by rewrite Heq, lookup_insert_eq|].
        apply get_is_Some_keys. rewrite Hkeys1. apply get_is_Some_keys.
        rewrite <- Heq in Hnm. congruence.
      - exists nm. split; [|done]. unfold w1. by rewrite lookup_insert_ne. }
    exists w'. split; [|split; [|split]].
    + unfold reenter. simpl. unfold bind at 1. rewrite Hstep. exact Hrun.
    + done.
    + intros m Hm. rewrite fmap_cons, not_elem_of_cons in Hm.
      destruct Hm as [Hm1 Hm2]. rewrite Hother by done.
      unfold w1. by rewrite lookup_insert_ne.
    + intros l1 con l2 Heq Hl2 nm Hnm. destruct l1 as [|c0 l1].
      * simpl in Heq. injection Heq as -> ->.
        assert (nm = nmc) as -> by congruence.
        exists nm1. split; [done|]. rewrite Hother.
        -- unfold w1. apply lookup_insert_eq.
        -- intros [c' [Hc' Hin]]%list_elem_of_fmap. by apply (Hl2 c').
      * simpl in Heq. injection Heq as -> ->.
        destruct (decide (Graph.inputNode c0 = Graph.inputNode con))
          as [Heq|Hd].
        -- destruct (Hlast l1 con l2 eq_refl Hl2 nm1) as (nm' & Hs' & Hw').
           { unfold w1. by rewrite Heq, lookup_insert_eq. }
           exists nm'. split; [|done].
           rewrite Heq in Hnmc. assert (nm = nmc) as -> by congruence.
           by rewrite <- Hprep1.
        -- apply (Hlast l1 con l2 eq_refl Hl2).
           unfold w1. by rewrite lookup_insert_ne.
Qed.

(** A propagation without override stops with [InputAlreadySet] as soon as
    it meets a target that holds a value. *)
Lemma push_already self F outs conns : forall w : World,
  (exists me, w !! self = Some me /\ Node.outputs me = outs) ->
  (forall con, con ∈ conns ->
     is_Some (OrderedDict.get (Graph.outputName con) outs)) ->
  (forall con, con ∈ conns ->
     is_Some (input_slot w (Graph.inputNode con) (Graph.inputName con))) ->
  (exists con inp,
     con ∈ conns
     /\ input_slot w (Graph.inputNode con) (Graph.inputName con) = Some inp
     /\ Info.valueSet inp = true) ->
  fst (push self F conns w) = Raise InputAlreadySet.
Proof.
  induction conns as [|c l IH]; intros w Hself Houts Htgt Hex.
  - destruct Hex as (con & _ & Hin & _). by apply elem_of_nil in Hin.
  - destruct Hself as (me & Hme & Hmo).
    destruct (Houts c) as [out Hout]; [left|].
    destruct (Htgt c) as [inp0 Hinp0]; [left|].
    unfold push. simpl. unfold bind at 1. unfold bind at 1.
    rewrite (output_of_ok w self me _ out) by congruence.
    destruct (Info.valueSet inp0) eqn:Hv0.
    + pose proof (on_node_setInput_already w _ _ (F out) inp0 Hinp0 Hv0) as Hr.
      destruct (on_node (Graph.inputNode c)
                  (Node.setInput (Graph.inputName c) (F out) false) w)
        as [r s]. simpl in Hr. by rewrite Hr.
    + rewrite (on_node_setInput w _ _ (F out) false inp0 Hinp0)
        by (by rewrite Hv0).
      set (w1 := put_input (Graph.inputNode c) (Graph.inputName c)
                   (Info.with_value true (F out) inp0) w).
      assert (Hfr1 : same_frames w w1).
      { apply put_input_same_frames. rewrite Hinp0. eauto. }
      assert (Hsome : is_Some (w !! Graph.inputNode c)).
      { unfold input_slot in Hinp0.
        destruct (w !! Graph.inputNode c); [eauto | done]. }
      apply IH.
      * destruct (same_frames_lookup _ _ _ _ Hfr1 Hme) as (me1 & Hme1 & Hf).
        exists me1. split; [done|]. destruct Hf as (_ & <- & _). done.
      * intros con Hcon. apply Houts. by right.
      * intros con Hcon.
        destruct (decide (target c = target con)) as [Heq|Hd].
        -- injection Heq as <- <-. unfold w1.
           rewrite input_slot_put_eq by done. eauto.
        -- unfold w1. rewrite input_slot_put_ne by done. apply Htgt. by right.
      * destruct Hex as (con & inp & Hcon & Hinp & Hv).
        apply elem_of_cons in Hcon as [->|Hcon]; [congruence|].
        destruct (decide (target c = target con)) as [Heq|Hd].
        -- injection Heq as Hn Hi. exists con. eexists. split; [done|].
           unfold w1. rewrite <- Hn, <- Hi.
           rewrite input_slot_put_eq by done. done.
        -- exists con, inp. split; [done|]. split; [|done].
           unfold w1. by rewrite input_slot_put_ne.
Qed.

Lemma on_node_reset_Control (w : World) m n c :
  w !! m = Some n ->
  OrderedDict.get "Control" (Node.inputs n) = Some c ->
  on_node m reset_Control w
  = (Ok tt,
     <[m := Node.with_inputs
              (OrderedDict.set "Control" (Info.reset c) (Node.inputs n)) n]> w).
Proof.
  intros Hm Hc. unfold on_node, reset_Control. by rewrite Hm, Hc.
Qed.

(** C4: [Loop.notify]. While [executionsRemaining > 1], every connection
    leaving [LoopBody] has [prepare()] called on its successor and then the
    value of [LoopBody] forced into its input (so a successor ends in the
    state these two calls make of it, for the last connection reaching
    it), after which [executionsRemaining] is one less and [Control] is
    reset. When [executionsRemaining = 1], [Final] is propagated to the
    targets of its connections without [prepare()] (the successors keep
    their [executionsRemaining] and their other inputs) and without
    override (a target that already holds a value makes the call raise
    [InputAlreadySet]), and [executionsRemaining] becomes [0]. The
    successors are nodes other than the loop itself. *)
Theorem Loop_notify_spec (g : Graph.t) (w : World) (self : string)
    (me : Node.t) (control : Info.t) :
  w !! self = Some me ->
  OrderedDict.get "Control" (Node.inputs me) = Some control ->
  (forall loopBody,
     1 < Node.inProgress me ->
     OrderedDict.get "LoopBody" (Node.outputs me) = Some loopBody ->
     Info.name loopBody = "LoopBody" ->
     (forall con, con ∈ Graph.getConnectionsOfOutput g loopBody ->
        Graph.inputNode con <> self
        /\ is_Some (input_slot w (Graph.inputNode con) (Graph.inputName con))) ->
     exists w' me',
       Loop_notify g self w = (Ok tt, w')
       /\ w' !! self = Some me'
       /\ Node.inProgress me' = Node.inProgress me - 1
       /\ OrderedDict.get "Control" (Node.inputs me')
          = Some (Info.reset control)
       /\ (forall i, i <> "Control" ->
             OrderedDict.get i (Node.inputs me')
             = OrderedDict.get i (Node.inputs me))
       /\ (forall l1 con l2,
             Graph.getConnectionsOfOutput g loopBody = l1 ++ con :: l2 ->
             (forall c, c ∈ l2 -> Graph.inputNode c <> Graph.inputNode con) ->
             forall nm, w !! Graph.inputNode con = Some nm ->
             exists nm',
               Node.setInput (Graph.inputName con) (Info.value loopBody) true
                 (Node.prepare nm) = (Ok tt, nm')
               /\ w' !! Graph.inputNode con = Some nm'))
  /\ (forall final,
        Node.inProgress me = 1 ->
        OrderedDict.get "Final" (Node.outputs me) = Some final ->
        Info.name final = "Final" ->
        (forall con, con ∈ Graph.getConnectionsOfOutput g final ->
           Graph.inputNode con <> self
           /\ exists inp,
                input_slot w (Graph.inputNode con) (Graph.inputName con)
                = Some inp
                /\ Info.valueSet inp = false) ->
        NoDup (target <$> Graph.getConnectionsOfOutput g final) ->
        exists w' me',
          Loop_notify g self w = (Ok tt, w')
          /\ w' !! self = Some me'
          /\ Node.inProgress me' = 0
          /\ OrderedDict.get "Control" (Node.inputs me')
             = Some (Info.reset control)
          /\ (forall con, con ∈ Graph.getConnectionsOfOutput g final ->
                exists inp inp',
                  input_slot w (Graph.inputNode con) (Graph.inputName con)
                  = Some inp
                  /\ InputInfo.set (Info.value final) false inp = (Ok tt, inp')
                  /\ input_slot w' (Graph.inputNode con) (Graph.inputName con)
                     = Some inp')
          /\ (forall m nm, m <> self -> w !! m = Some nm ->
                exists nm',
                  w' !! m = Some nm'
                  /\ Node.inProgress nm' = Node.inProgress nm
                  /\ forall i,
                       (m, i) ∉ target <$> Graph.getConnectionsOfOutput g final ->
                       OrderedDict.get i (Node.inputs nm')
                       = OrderedDict.get i (Node.inputs nm)))
  /\ (forall final,
        Node.inProgress me = 1 ->
        OrderedDict.get "Final" (Node.outputs me) = Some final ->
        Info.name final = "Final" ->
        (forall con, con ∈ Graph.getConnectionsOfOutput g final ->
           is_Some (input_slot w (Graph.inputNode con) (Graph.inputName con))) ->
        (exists con inp,
           con ∈ Graph.getConnectionsOfOutput g final
           /\ input_slot w (Graph.inputNode con) (Graph.inputName con)
              = Some inp
           /\ Info.valueSet inp = true) ->
        fst (Loop_notify g self w) = Raise InputAlreadySet).
Proof.
  intros Hme Hctl. split; [|split].
  - intros lb Hp Hlb Hname Hpre.
    destruct (reenter_ok self me lb (Graph.getConnectionsOfOutput g lb) w Hme)
      as (w1 & Hrun & Hme1 & Hother & Hlast).
    { intros con Hcon. destruct (Hpre con Hcon) as [Hne Hsome].
      split; [done|]. split.
      - by rewrite (elem_of_getConnectionsOfOutput _ _ _ Hcon), Hname.
      - unfold input_slot in Hsome.
        destruct (w !! Graph.inputNode con) as [nm|]; [eauto | by destruct Hsome]. }
    set (me2 := Node.with_inProgress (Node.inProgress me - 1) me).
    set (me3 := Node.with_inputs
                  (OrderedDict.set "Control" (Info.reset control)
                     (Node.inputs me2)) me2).
    exists (<[self := me3]> (<[self := me2]> w1)), me3.
    split; [|split; [|split; [|split; [|split]]]].
    + unfold Loop_notify. unfold bind at 1. unfold lookup_node at 1.
      rewrite Hme. apply Z.ltb_lt in Hp. rewrite Hp.
      unfold bind at 1. unfold bind at 1.
      rewrite (output_of_ok w self me "LoopBody" lb) by done.
      change (for_each (Graph.getConnectionsOfOutput g lb) _)
        with (reenter self (Graph.getConnectionsOfOutput g lb)).
      rewrite Hrun. unfold bind.
      rewrite (on_node_modify w1 self me) by done.
      rewrite (on_node_reset_Control _ self me2 control);
        [done | apply lookup_insert_eq | done].
    + apply lookup_insert_eq.
    + done.
    + simpl. apply get_set_eq.
    + intros i Hi. simpl. by apply get_set_ne.
    + intros l1 con l2 Heq Hl2 nm Hnm.
      destruct (Hlast l1 con l2 Heq Hl2 nm Hnm) as (nm' & Hs & Hw).
      exists nm'. split; [done|].
      assert (Graph.inputNode con <> self) as Hne.
      { apply Hpre. rewrite Heq. apply elem_of_app. right. left. }
      by rewrite !lookup_insert_ne.
  - intros fin Hp Hfin Hname Hpre Hnd.
    destruct (push_ok self Info.value (Node.outputs me)
                (Graph.getConnectionsOfOutput g fin) w)
      as (w1 & Hrun & Hfr & Hset & Hother).
    { by exists me. }
    { intros con Hcon. rewrite (elem_of_getConnectionsOfOutput _ _ _ Hcon).
      rewrite Hname. eauto. }
    { intros con Hcon. by apply Hpre. }
    { done. }
    destruct (same_frames_lookup _ _ _ _ Hfr Hme)
      as (me1 & Hme1 & _ & Ho1 & Hp1 & _ & _ & _).
    assert (Hctl1 : OrderedDict.get "Control" (Node.inputs me1) = Some control).
    { pose proof (Hother self "Control") as Hsc. unfold input_slot in Hsc.
      rewrite Hme1, Hme in Hsc. rewrite Hsc; [done|].
      intros [con [Heq Hcon]]%list_elem_of_fmap.
      destruct (Hpre con Hcon) as [Hne _]. apply Hne.
      by injection Heq as -> _. }
    set (me2 := Node.with_inProgress (Node.inProgress me1 - 1) me1).
    set (me3 := Node.with_inputs
                  (OrderedDict.set "Control" (Info.reset control)
                     (Node.inputs me2)) me2).
    exists (<[self := me3]> (<[self := me2]> w1)), me3.
    split; [|split; [|split; [|split; [|split]]]].
    + unfold Loop_notify. unfold bind at 1. unfold lookup_node at 1.
      rewrite Hme, Hp. simpl.
      unfold bind at 1. unfold bind at 1.
      rewrite (output_of_ok w self me "Final" fin) by done.
      change (propagate g self fin)
        with (push self Info.value (Graph.getConnectionsOfOutput g fin)).
      rewrite Hrun. unfold bind.
      rewrite (on_node_modify w1 self me1) by done.
      rewrite (on_node_reset_Control _ self me2 control);
        [done | apply lookup_insert_eq | done].
    + apply lookup_insert_eq.
    + simpl. rewrite <- Hp1, Hp. done.
    + simpl. apply get_set_eq.
    + intros con Hcon. destruct (Hset con Hcon) as (out' & inp & Ho & Hi & Hf).
      destruct (Hpre con Hcon) as (Hne & inp0 & Hi0 & Hu0).
      assert (inp0 = inp) as -> by congruence.
      rewrite (elem_of_getConnectionsOfOutput _ _ _ Hcon), Hname in Ho.
      assert (out' = fin) as -> by congruence.
      exists inp, (Info.with_value true (Info.value fin) inp).
      split; [done|]. split.
      * unfold InputInfo.set. by rewrite Hu0.
      * by rewrite !input_slot_insert_ne.
    + intros m nm Hm Hnm.
      destruct (same_frames_lookup _ _ _ _ Hfr Hnm)
        as (nm' & Hnm' & _ & _ & Hpm & _).
      exists nm'. split; [by rewrite !lookup_insert_ne|]. split; [done|].
      intros i Hi. pose proof (Hother m i Hi) as Hs.
      unfold input_slot in Hs. by rewrite Hnm', Hnm in Hs.
  - intros fin Hp Hfin Hname Htgt Hex.
    unfold Loop_notify. unfold bind at 1. unfold lookup_node at 1.
    rewrite Hme, Hp. simpl.
    unfold bind at 1. unfold bind at 1.
    rewrite (output_of_ok w self me "Final" fin) by done.
    change (propagate g self fin)
      with (push self Info.value (Graph.getConnectionsOfOutput g fin)).
    pose proof (push_already self Info.value (Node.outputs me)
                  (Graph.getConnectionsOfOutput g fin) w) as Hr.
    destruct (push self Info.value (Graph.getConnectionsOfOutput g fin) w)
      as [r s]. simpl in Hr. rewrite Hr; [done | by exists me | | done..].
    intros con Hcon. rewrite (elem_of_getConnectionsOfOutput _ _ _ Hcon).
    rewrite Hname. eauto.
Qed.

Lemma loop_connections_LoopBody :
  Graph.getConnectionsOfOutput loop_graph
    (slot "L" "LoopBody" TObject (Some (VInt 0)))
  = [Graph.mkConnection "L" "LoopBody" "B" "In"].
Proof. reflexivity. Defined.

Lemma loop_connections_Final :
  Graph.getConnectionsOfOutput loop_graph
    (slot "L" "Final" TObject (Some (VInt 9)))
  = [Graph.mkConnection "L" "Final" "E" "In"].
Proof. reflexivity. Defined.

Lemma Loop_notify_spec_witness :
  (exists w' me' b',
     Loop_notify loop_graph "L" (loop_world 4 None) = (Ok tt, w')
     /\ w' !! "L" = Some me'
     /\ Node.inProgress me' = 3
     /\ OrderedDict.get "Control" (Node.inputs me')
        = Some (slot "L" "Control" TObject None)
     /\ w' !! "B" = Some b'
     /\ Node.inProgress b' = 1
     /\ OrderedDict.get "In" (Node.inputs b')
        = Some (slot "B" "In" TObject (Some (VInt 0))))
  /\ (exists w' me',
        Loop_notify loop_graph "L" (loop_world 1 None) = (Ok tt, w')
        /\ w' !! "L" = Some me'
        /\ Node.inProgress me' = 0
        /\ input_slot w' "E" "In" = Some (slot "E" "In" TObject (Some (VInt 9))))
  /\ fst (Loop_notify loop_graph "L" (loop_world 1 (Some (VInt 1))))
     = Raise InputAlreadySet.
Proof.
  split; [|split].
  - destruct (proj1 (Loop_notify_spec loop_graph (loop_world 4 None) "L"
                       (loop_L 4) (slot "L" "Control" TObject (Some (VInt 8)))
                       eq_refl eq_refl)
                (slot "L" "LoopBody" TObject (Some (VInt 0))))
      as (w' & me' & Hrun & Hme' & Hp & Hc & _ & Hlast);
      try reflexivity.
    + rewrite loop_connections_LoopBody.
      intros con ->%list_elem_of_singleton. split; [done | by eexists].
    + destruct (Hlast [] (Graph.mkConnection "L" "LoopBody" "B" "In") []
                  loop_connections_LoopBody) with (nm := loop_B)
        as (b' & Hb & Hwb).
      * intros c Hc'. by apply elem_of_nil in Hc'.
      * reflexivity.
      * exists w', me', b'. injection Hb as <-. by repeat split.
  - destruct (proj1 (proj2 (Loop_notify_spec loop_graph (loop_world 1 None) "L"
                       (loop_L 1) (slot "L" "Control" TObject (Some (VInt 8)))
                       eq_refl eq_refl))
                (slot "L" "Final" TObject (Some (VInt 9))))
      as (w' & me' & Hrun & Hme' & Hp & _ & Hset & _);
      try reflexivity.
    + rewrite loop_connections_Final.
      intros con ->%list_elem_of_singleton.
      split; [done|]. eexists. split; reflexivity.
    + rewrite loop_connections_Final. apply NoDup_singleton.
    + exists w', me'. repeat split; [done..|].
      destruct (Hset (Graph.mkConnection "L" "Final" "E" "In"))
        as (inp & inp' & Hi & Hs & Hf).
      * rewrite loop_connections_Final. by apply list_elem_of_singleton.
      * simpl in Hi, Hf. rewrite Hf. f_equal.
        injection Hi as <-. by injection Hs as <-.
  - apply (proj2 (proj2 (Loop_notify_spec loop_graph
                           (loop_world 1 (Some (VInt 1))) "L"
                           (loop_L 1) (slot "L" "Control" TObject (Some (VInt 8)))
                           eq_refl eq_refl))
             (slot "L" "Final" TObject (Some (VInt 9))));
      try reflexivity.
    + rewrite loop_connections_Final.
      intros con ->%list_elem_of_singleton. by eexists.
    + exists (Graph.mkConnection "L" "Final" "E" "In"). eexists.
      rewrite loop_connections_Final.
      split; [by apply list_elem_of_singleton|]. split; reflexivity.
Defined.

(** Why the successors of [LoopBody] are taken to be other nodes: when the
    loop is its own successor, the [prepare()] it calls on itself puts its
    counter back to [1], and the decrement leaves [0] instead of [3]. *)
Lemma Loop_notify_self_successor :
  fst (Loop_notify selfloop_graph "L" selfloop_world) = Ok tt
  /\ Node.inProgress <$> (snd (Loop_notify selfloop_graph "L" selfloop_world)
                          !! "L")
     = Some 0.
Proof. split; vm_compute; reflexivity. Qed.

(** ** Class construction and instantiation *)

Lemma for_each_exec body : forall st,
  for_each body exec st
  = (Ok tt,
     {| Interp.heap := Interp.heap st;
        Interp.NODECLASSES := Interp.NODECLASSES st;
        Interp.inputs := Interp.inputs st ++ input_decls body;
        Interp.outputs := Interp.outputs st ++ output_decls body |}).
Proof.
  induction body as [|s body IH]; intros [h nc i o]; simpl.
  - by rewrite !app_nil_r.
  - unfold bind. destruct s; simpl; rewrite IH; simpl;
      by rewrite <- ?app_assoc.
Qed.

Lemma fold_addInput decls : forall cls st,
  fold_m Node_addInput decls cls st
  = (Ok {| Class.__name__ := Class.__name__ cls;
           Class.__inputs__ :=
             add_decls (length (Interp.heap st)) decls (Class.__inputs__ cls);
           Class.__outputs__ := Class.__outputs__ cls |},
     Interp.with_heap (Interp.heap st ++ map Info_of decls) st).
Proof.
  induction decls as [|d decls IH]; intros [nm ins outs] [h nc i o]; simpl.
  - unfold ret, Interp.with_heap. simpl. by rewrite app_nil_r.
  - unfold bind at 1. unfold Node_addInput at 1, bind, alloc, ret. simpl.
    rewrite IH. unfold Interp.with_heap. simpl.
    rewrite length_app, Nat.add_1_r, <- app_assoc. done.
Qed.

Lemma fold_addOutput decls : forall cls st,
  fold_m Node_addOutput decls cls st
  = (Ok {| Class.__name__ := Class.__name__ cls;
           Class.__inputs__ := Class.__inputs__ cls;
           Class.__outputs__ :=
             add_decls (length (Interp.heap st)) decls (Class.__outputs__ cls) |},
     Interp.with_heap (Interp.heap st ++ map Info_of decls) st).
Proof.
  induction decls as [|d decls IH]; intros [nm ins outs] [h nc i o]; simpl.
  - unfold ret, Interp.with_heap. simpl. by rewrite app_nil_r.
  - unfold bind at 1. unfold Node_addOutput at 1, bind, alloc, ret. simpl.
    rewrite IH. unfold Interp.with_heap. simpl.
    rewrite length_app, Nat.add_1_r, <- app_assoc. done.
Qed.

(** What a class statement builds: the templates of the base, then those
    of the body, whose slot objects are appended to the heap. *)
Lemma class_stmt_result name base body st :
  let ins0 := match base with Some b => Class.__inputs__ b | None => [] end in
  let outs0 := match base with Some b => Class.__outputs__ b | None => [] end in
  let h := Interp.heap st in
  let h1 := h ++ map Info_of (input_decls body) in
  exists st',
    class_stmt name base body st
    = (Ok {| Class.__name__ := name;
             Class.__inputs__ := add_decls (length h) (input_decls body) ins0;
             Class.__outputs__ :=
               add_decls (length h1) (output_decls body) outs0 |},
       st')
    /\ Interp.heap st' = h1 ++ map Info_of (output_decls body).
Proof.
  destruct st as [h nc i o]. simpl.
  unfold class_stmt, bind, MetaNode_prepare, modify. simpl.
  rewrite for_each_exec. simpl.
  unfold MetaNode_new, bind, get_state. simpl.
  rewrite fold_addInput. simpl. rewrite fold_addOutput. simpl.
  unfold register, modify, ret. simpl. eexists. split; reflexivity.
Qed.

Lemma init_input_step self a o st :
  Interp.heap st !! a = Some o ->
  init_input self a st
  = (Ok {| Object.__pos__ := Object.__pos__ self;
           Object.ID := Object.ID self;
           Object.inputs :=
             OrderedDict.set (Info.name o) (length (Interp.heap st))
               (Object.inputs self);
           Object.outputs := Object.outputs self;
           Object.inputPins :=
             OrderedDict.set (Info.name o)
               {| Pin.ID := Object.ID self +:+ ":I" +:+ Info.name o;
                  Pin.name := Info.name o;
                  Pin.info := length (Interp.heap st);
                  Pin.node := Object.ID self |}
               (Object.inputPins self);
           Object.outputPins := Object.outputPins self;
           Object.inProgress := Object.inProgress self |},
     Interp.with_heap (Interp.heap st ++ [clone (Object.ID self) ":I" o]) st).
Proof.
  destruct st as [h nc i oo]. simpl. intros Ha.
  unfold init_input, bind, deref, alloc, update, ret. simpl. rewrite Ha. simpl.
  rewrite lookup_app_r, Nat.sub_diag by done. simpl.
  rewrite list_lookup_insert_eq by (rewrite length_app; simpl; lia). simpl.
  rewrite list_lookup_insert_eq by (rewrite length_app; simpl; lia). simpl.
  unfold Interp.with_heap. simpl. f_equal. f_equal.
  rewrite list_insert_insert_eq.
  rewrite insert_app_r_alt, Nat.sub_diag by done. done.
Qed.

Lemma init_output_step self a o st :
  Interp.heap st !! a = Some o ->
  init_output self a st
  = (Ok {| Object.__pos__ := Object.__pos__ self;
           Object.ID := Object.ID self;
           Object.inputs := Object.inputs self;
           Object.outputs :=
             OrderedDict.set (Info.name o) (length (Interp.heap st))
               (Object.outputs self);
           Object.inputPins := Object.inputPins self;
           Object.outputPins :=
             OrderedDict.set (Info.name o)
               {| Pin.ID := Object.ID self +:+ ":O" +:+ Info.name o;
                  Pin.name := Info.name o;
                  Pin.info := length (Interp.heap st);
                  Pin.node := Object.ID self |}
               (Object.outputPins self);
           Object.inProgress := Object.inProgress self |},
     Interp.with_heap (Interp.heap st ++ [clone (Object.ID self) ":O" o]) st).
Proof.
  destruct st as [h nc i oo]. simpl. intros Ha.
  unfold init_output, bind, deref, alloc, update, ret. simpl. rewrite Ha. simpl.
  rewrite lookup_app_r, Nat.sub_diag by done. simpl.
  rewrite list_lookup_insert_eq by (rewrite length_app; simpl; lia). simpl.
  rewrite list_lookup_insert_eq by (rewrite length_app; simpl; lia). simpl.
  unfold Interp.with_heap. simpl. f_equal. f_equal.
  rewrite list_insert_insert_eq.
  rewrite insert_app_r_alt, Nat.sub_diag by done. done.
Qed.

Lemma templates_app h h' addrs objs :
  templates h addrs objs -> templates (h ++ h') addrs objs.
Proof.
  intros H. eapply Forall2_impl; [exact H|]. simpl.
  intros a o Ha. by apply lookup_app_l_Some.
Qed.

Lemma fold_init_input addrs : forall objs self st,
  templates (Interp.heap st) addrs objs ->
  exists self' st',
    fold_m init_input addrs self st = (Ok self', st')
    /\ Interp.heap st'
       = Interp.heap st ++ map (clone (Object.ID self) ":I") objs
    /\ Object.inputs self'
       = add_clones (length (Interp.heap st)) objs (Object.inputs self)
    /\ Object.outputs self' = Object.outputs self
    /\ Object.ID self' = Object.ID self
    /\ Object.inProgress self' = Object.inProgress self.
Proof.
  induction addrs as [|a addrs IH]; intros objs self st Ht.
  - inversion Ht; subst. exists self, st. simpl. by rewrite app_nil_r.
  - inversion Ht as [|? o ? objs' Ha Ht']; subst.
    simpl. unfold bind at 1. rewrite (init_input_step self a o st Ha).
    match goal with
    | |- context [fold_m init_input addrs ?s ?t] =>
        destruct (IH objs' s t) as (self' & st' & Hrun & Hh & Hi & Ho & Hid & Hp)
    end.
    { simpl. apply templates_app. exact Ht'. }
    exists self', st'. split; [exact Hrun|].
    simpl in Hh, Hi, Ho, Hid, Hp.
    rewrite Hh, Hi, Ho, Hid, Hp. simpl.
    rewrite length_app, Nat.add_1_r, <- app_assoc. done.
Qed.

Lemma fold_init_output addrs : forall objs self st,
  templates (Interp.heap st) addrs objs ->
  exists self' st',
    fold_m init_output addrs self st = (Ok self', st')
    /\ Interp.heap st'
       = Interp.heap st ++ map (clone (Object.ID self) ":O") objs
    /\ Object.outputs self'
       = add_clones (length (Interp.heap st)) objs (Object.outputs self)
    /\ Object.inputs self' = Object.inputs self
    /\ Object.ID self' = Object.ID self
    /\ Object.inProgress self' = Object.inProgress self.
Proof.
  induction addrs as [|a addrs IH]; intros objs self st Ht.
  - inversion Ht; subst. exists self, st. simpl. by rewrite app_nil_r.
  - inversion Ht as [|? o ? objs' Ha Ht']; subst.
    simpl. unfold bind at 1. rewrite (init_output_step self a o st Ha).
    match goal with
    | |- context [fold_m init_output addrs ?s ?t] =>
        destruct (IH objs' s t) as (self' & st' & Hrun & Hh & Hi & Ho & Hid & Hp)
    end.
    { simpl. apply templates_app. exact Ht'. }
    exists self', st'. split; [exact Hrun|].
    simpl in Hh, Hi, Ho, Hid, Hp.
    rewrite Hh, Hi, Ho, Hid, Hp. simpl.
    rewrite length_app, Nat.add_1_r, <- app_assoc. done.
Qed.

(** What [Node.__init__] builds from a class whose templates are in the
    heap: the clones are appended to the heap, inputs first, and the
    instance refers to the clones. *)
Lemma Node_init_result cls nodeID st ins outs :
  templates (Interp.heap st) (OrderedDict.values (Class.__inputs__ cls)) ins ->
  templates (Interp.heap st) (OrderedDict.values (Class.__outputs__ cls)) outs ->
  exists self st',
    Node_init cls nodeID st = (Ok self, st')
    /\ Interp.heap st'
       = Interp.heap st ++ map (clone nodeID ":I") ins
         ++ map (clone nodeID ":O") outs
    /\ Object.inputs self = add_clones (length (Interp.heap st)) ins []
    /\ Object.ID self = nodeID
    /\ Object.inProgress self = 1.
Proof.
  intros Hi Ho. unfold Node_init.
  set (self0 := {| Object.__pos__ := (0, 0); Object.ID := nodeID;
                   Object.inputs := []; Object.outputs := [];
                   Object.inputPins := []; Object.outputPins := [];
                   Object.inProgress := 1 |}).
  destruct (fold_init_input _ ins self0 st Hi)
    as (s1 & st1 & Hrun1 & Hh1 & Hi1 & _ & Hid1 & Hp1).
  destruct (fold_init_output (OrderedDict.values (Class.__outputs__ cls))
              outs s1 st1)
    as (s2 & st2 & Hrun2 & Hh2 & _ & Hi2 & Hid2 & Hp2).
  { rewrite Hh1. apply templates_app. exact Ho. }
  exists s2, st2. unfold bind. rewrite Hrun1, Hrun2.
  split; [done|]. rewrite Hh2, Hh1, Hi2, Hi1, Hid2, Hid1, Hp2, Hp1. simpl.
  by rewrite <- app_assoc.
Qed.

Lemma below_set n k a d :
  (a < n)%nat -> below n d -> below n (OrderedDict.set k a d).
Proof.
  unfold below. intros Ha. induction d as [|[k0 a0] d IH]; simpl.
  - by repeat constructor.
  - destruct (decide (k0 = k)); simpl; inversion 1; subst; constructor; eauto.
Qed.

Lemma below_add_decls decls : forall a n d,
  (a + length decls <= n)%nat -> below n d -> below n (add_decls a decls d).
Proof.
  induction decls as [|x decls IH]; intros a n d Hle Hd; simpl; [done|].
  simpl in Hle. apply IH; [lia|]. apply below_set; [lia | done].
Qed.

Lemma below_templates h d :
  below (length h) d -> exists objs, templates h (OrderedDict.values d) objs.
Proof.
  unfold below, templates. induction (OrderedDict.values d) as [|a l IH].
  - exists []. constructor.
  - inversion 1 as [|? ? Ha Hl]; subst. destruct (IH Hl) as [objs Hobjs].
    destruct (lookup_lt_is_Some_2 h a Ha) as [o Ho].
    exists (o :: objs). by constructor.
Qed.


Lemma lookup_mid0 {A} (P : list A) x R : (P ++ x :: R) !! length P = Some x.
Proof. by apply list_lookup_middle. Qed.

Lemma lookup_mid1 {A} (P : list A) x y R :
  (P ++ x :: y :: R) !! S (length P) = Some y.
Proof.
  rewrite lookup_app_r by lia.
  by replace (S (length P) - length P)%nat with 1%nat by lia.
Qed.

Lemma lookup_mid2 {A} (P : list A) x y z R :
  (P ++ x :: y :: z :: R) !! S (S (length P)) = Some z.
Proof.
  rewrite lookup_app_r by lia.
  by replace (S (S (length P)) - length P)%nat with 2%nat by lia.
Qed.

(** Looks an address up in a heap described by a chain of equations
    [heap = older heap ++ new objects]. *)
Ltac heap_lookup :=
  simpl;
  lazymatch goal with
  | |- (?P ++ _ :: _) !! length ?P = Some _ => apply lookup_mid0
  | |- (?P ++ _ :: _ :: _) !! S (length ?P) = Some _ => apply lookup_mid1
  | |- (?P ++ _ :: _ :: _ :: _) !! S (S (length ?P)) = Some _ =>
      apply lookup_mid2
  | |- (_ ++ _) !! _ = Some _ => apply lookup_app_l_Some; heap_lookup
  | |- ?H !! _ = Some _ =>
      match goal with
      | E : H = _ |- _ => rewrite E; heap_lookup
      end
  end.

(** C8: a node type declared with the inputs [A] and [B], in that order, a
    subtype that declares the input [C], and two instances of the subtype.
    Each instance maps exactly [A], [B], [C], in that order, to slot
    objects of its own: clones of the templates with the owner and the pin
    identity set, at addresses that differ from the templates' and from the
    other instance's, so that a write to a slot of one instance changes no
    other object. *)
Theorem subtype_instance_inputs (st0 : Interp.t)
    (tname sname id1 id2 : string) (bodyT bodyS : list stmt)
    (dA dB dC : Decl.t) :
  input_decls bodyT = [dA; dB] ->
  input_decls bodyS = [dC] ->
  NoDup [Decl.name dA; Decl.name dB; Decl.name dC] ->
  exists Nd st1 T st2 Sub st3 n1 st4 n2 st5,
    class_stmt "Node" None [] st0 = (Ok Nd, st1)
    /\ class_stmt tname (Some Nd) bodyT st1 = (Ok T, st2)
    /\ class_stmt sname (Some T) bodyS st2 = (Ok Sub, st3)
    /\ Node_init Sub id1 st3 = (Ok n1, st4)
    /\ Node_init Sub id2 st4 = (Ok n2, st5)
    /\ OrderedDict.keys (Class.__inputs__ T) = [Decl.name dA; Decl.name dB]
    /\ OrderedDict.keys (Object.inputs n1)
       = [Decl.name dA; Decl.name dB; Decl.name dC]
    /\ OrderedDict.keys (Object.inputs n2)
       = [Decl.name dA; Decl.name dB; Decl.name dC]
    /\ map (fun a => Interp.heap st5 !! a) (OrderedDict.values (Object.inputs n1))
       = [Some (clone id1 ":I" (Info_of dA)); Some (clone id1 ":I" (Info_of dB));
          Some (clone id1 ":I" (Info_of dC))]
    /\ map (fun a => Interp.heap st5 !! a) (OrderedDict.values (Object.inputs n2))
       = [Some (clone id2 ":I" (Info_of dA)); Some (clone id2 ":I" (Info_of dB));
          Some (clone id2 ":I" (Info_of dC))]
    /\ map (fun a => Interp.heap st5 !! a) (OrderedDict.values (Class.__inputs__ Sub))
       = [Some (Info_of dA); Some (Info_of dB); Some (Info_of dC)]
    /\ NoDup (OrderedDict.values (Object.inputs n1)
              ++ OrderedDict.values (Object.inputs n2)
              ++ OrderedDict.values (Class.__inputs__ Sub))
    /\ (forall a f,
          a ∈ OrderedDict.values (Object.inputs n1)
              ++ OrderedDict.values (Object.inputs n2) ->
          exists st6,
            update a f st5 = (Ok tt, st6)
            /\ forall a', a' <> a ->
                 Interp.heap st6 !! a' = Interp.heap st5 !! a').
Proof.
  intros HT HS Hnd.
  apply NoDup_cons in Hnd as [HA Hnd]. apply NoDup_cons in Hnd as [HB _].
  apply not_elem_of_cons in HA as [HAB HA].
  apply not_elem_of_cons in HA as [HAC _].
  apply not_elem_of_cons in HB as [HBC _].
  destruct (class_stmt_result "Node" None [] st0) as (st1 & Hc1 & Hh1).
  simpl in Hc1, Hh1. rewrite !app_nil_r in Hh1.
  destruct (class_stmt_result tname
              (Some {| Class.__name__ := "Node"; Class.__inputs__ := [];
                       Class.__outputs__ := [] |}) bodyT st1)
    as (st2 & Hc2 & Hh2).
  rewrite HT in Hc2, Hh2. simpl in Hc2, Hh2.
  rewrite (decide_False (P := Decl.name dA = Decl.name dB)) in Hc2 by done.
  match type of Hc2 with _ = (Ok ?c, _) => set (T := c) in * end.
  destruct (class_stmt_result sname (Some T) bodyS st2) as (st3 & Hc3 & Hh3).
  rewrite HS in Hc3, Hh3. simpl in Hc3, Hh3.
  rewrite (decide_False (P := Decl.name dA = Decl.name dC)) in Hc3 by done.
  rewrite (decide_False (P := Decl.name dB = Decl.name dC)) in Hc3 by done.
  match type of Hc3 with _ = (Ok ?c, _) => set (Sub := c) in * end.
  set (iA := Info_of dA) in *. set (iB := Info_of dB) in *.
  set (iC := Info_of dC) in *.
  assert (Hin3 : templates (Interp.heap st3)
                   (OrderedDict.values (Class.__inputs__ Sub)) [iA; iB; iC]).
  { simpl. repeat constructor; heap_lookup. }
  assert (Hl2 : (length (Interp.heap st1) + 2
                 + length (output_decls bodyT))%nat
                = length (Interp.heap st2)).
  { rewrite Hh2, !length_app, length_map. simpl. lia. }
  assert (Hl3 : (length (Interp.heap st2) + 1
                 + length (output_decls bodyS))%nat
                = length (Interp.heap st3)).
  { rewrite Hh3, !length_app, length_map. simpl. lia. }
  destruct (below_templates (Interp.heap st3) (Class.__outputs__ Sub))
    as [outs Hout3].
  { simpl. apply below_add_decls; [rewrite length_app; simpl; lia|].
    apply below_add_decls; [rewrite length_app; simpl; lia|].
    constructor. }
  destruct (Node_init_result Sub id1 st3 _ _ Hin3 Hout3)
    as (n1 & st4 & Hi1 & Hh4 & Hn1 & _ & _).
  assert (Hl4 : (length (Interp.heap st3) + 3 <= length (Interp.heap st4))%nat).
  { rewrite Hh4, !length_app. simpl. lia. }
  destruct (Node_init_result Sub id2 st4 [iA; iB; iC] outs)
    as (n2 & st5 & Hi2 & Hh5 & Hn2 & _ & _).
  { rewrite Hh4. by apply templates_app. }
  { rewrite Hh4. by apply templates_app. }
  simpl in Hn1, Hn2, Hh4, Hh5.
  repeat (rewrite decide_False in Hn1 by done; simpl in Hn1).
  repeat (rewrite decide_False in Hn2 by done; simpl in Hn2).
  eexists _, st1, T, st2, Sub, st3, n1, st4, n2, st5.
  split; [exact Hc1|]. split; [exact Hc2|]. split; [exact Hc3|].
  split; [exact Hi1|]. split; [exact Hi2|]. split; [done|].
  rewrite Hn1, Hn2. split; [done|]. split; [done|].
  split; [|split; [|split; [|split]]].
  - simpl. f_equal; [|f_equal; [|f_equal]]; heap_lookup.
  - simpl. f_equal; [|f_equal; [|f_equal]]; heap_lookup.
  - simpl. f_equal; [|f_equal; [|f_equal]]; heap_lookup.
  - simpl.
    repeat (apply NoDup_cons_2;
            [rewrite ?not_elem_of_cons;
             repeat split; try lia; apply not_elem_of_nil|]).
    apply NoDup_nil_2.
  - intros a f Ha. simpl in Ha.
    assert (is_Some (Interp.heap st5 !! a)) as [o Ho].
    { repeat (apply elem_of_cons in Ha as [->|Ha]);
        [eexists; heap_lookup.. | by apply elem_of_nil in Ha]. }
    exists (Interp.with_heap (<[a := f o]> (Interp.heap st5)) st5).
    unfold update. rewrite Ho. split; [done|].
    intros a' Hne. simpl. by apply list_lookup_insert_ne.
Qed.

Lemma subtype_instance_inputs_witness :
  exists Nd st1 T st2 Sub st3 n1 st4 n2 st5,
    class_stmt "Node" None [] empty_interp = (Ok Nd, st1)
    /\ class_stmt "T" (Some Nd) [Input decl_A; Output decl_Out; Input decl_B] st1
       = (Ok T, st2)
    /\ class_stmt "Sub" (Some T) [Input decl_C] st2 = (Ok Sub, st3)
    /\ Node_init Sub "n1" st3 = (Ok n1, st4)
    /\ Node_init Sub "n2" st4 = (Ok n2, st5)
    /\ OrderedDict.keys (Object.inputs n1) = ["A"; "B"; "C"]
    /\ OrderedDict.keys (Object.inputs n2) = ["A"; "B"; "C"]
    /\ NoDup (OrderedDict.values (Object.inputs n1)
              ++ OrderedDict.values (Object.inputs n2)
              ++ OrderedDict.values (Class.__inputs__ Sub)).
Proof.
  destruct (subtype_instance_inputs empty_interp "T" "Sub" "n1" "n2"
              [Input decl_A; Output decl_Out; Input decl_B] [Input decl_C]
              decl_A decl_B decl_C eq_refl eq_refl)
    as (Nd & st1 & T & st2 & Sub & st3 & n1 & st4 & n2 & st5
        & H1 & H2 & H3 & H4 & H5 & _ & H7 & H8 & _ & _ & _ & H12 & _).
  - apply (bool_decide_unpack _). vm_compute. exact I.
  - exists Nd, st1, T, st2, Sub, st3, n1, st4, n2, st5. by repeat split.
Defined.

(** * Further properties of the code *)

(** ** Reading and writing through [self._name] *)

Lemma getattr_input (self : Node.t) item inp :
  OrderedDict.get item (Node.inputs self) = Some inp ->
  Node.getattr item self = (InputInfo.call false inp, self).
Proof. intros H. unfold Node.getattr. by rewrite H. Qed.

Lemma getattr_output (self : Node.t) item out :
  OrderedDict.get item (Node.inputs self) = None ->
  OrderedDict.get item (Node.outputs self) = Some out ->
  Node.getattr item self = (Ok (VInfo item), self).
Proof. intros Hi Ho. unfold Node.getattr. by rewrite Hi, Ho. Qed.

Lemma call_output (self : Node.t) item out v :
  OrderedDict.get item (Node.outputs self) = Some out ->
  Node.call (VInfo item) v self
  = (Ok tt,
     Node.with_outputs
       (OrderedDict.set item (OutputInfo.call v out) (Node.outputs self)) self).
Proof. intros Ho. unfold Node.call. by rewrite Ho. Qed.

Lemma get_Some_values {A} (d : list (string * A)) k v :
  OrderedDict.get k d = Some v -> v ∈ OrderedDict.values d.
Proof.
  induction d as [|[k0 v0] d IH]; simpl; [done|].
  destruct (decide (k0 = k)).
  - intros [= ->]. left.
  - intros H. right. by apply IH.
Qed.

Lemma check_inputs_but_Control_true l :
  check_inputs_but_Control l = true
  <-> Forall (fun i => Info.name i = "Control" \/ Info.valueSet i = true) l.
Proof.
  induction l as [|i l IH]; simpl.
  - split; [constructor | done].
  - destruct (decide (Info.name i = "Control")) as [Hn|Hn].
    + rewrite IH. split; [constructor; [by left | done] | by inversion 1].
    + destruct (Info.valueSet i) eqn:Hi; simpl.
      * rewrite IH. split; [constructor; [by right | done] | by inversion 1].
      * split; [done|]. inversion 1 as [|? ? [?|?] _]; congruence.
Qed.

Lemma check_inputs_but_Control_false l :
  check_inputs_but_Control l = false
  <-> Exists (fun i => Info.name i <> "Control" /\ Info.valueSet i = false) l.
Proof.
  induction l as [|i l IH]; simpl.
  - split; [done | inversion 1].
  - destruct (decide (Info.name i = "Control")) as [Hn|Hn].
    + rewrite IH. split; [by right | inversion 1 as [? ? [? _]|]; [done | done]].
    + destruct (Info.valueSet i) eqn:Hi; simpl.
      * rewrite IH. split; [by right|].
        inversion 1 as [? ? [_ ?]|]; [congruence | done].
      * split; [by left | done].
Qed.

(** ** [SwitchNode.run] and [SwitchNode.check] *)

(** What [SwitchNode.run] does, phase by phase. *)
Lemma SwitchNode_run_cases (n : Node.t)
    (start control switch final true_ false_ : Info.t) :
  Switch_slots n start control switch final true_ false_ ->
  (forall b v,
     Node.waiting n = false -> Node.inProgress n <> 0 ->
     InputInfo.call false switch = Ok b ->
     InputInfo.call false start = Ok v ->
     SwitchNode_run n
     = (Ok tt,
        if truthy b
        then Node.with_outputs
               (OrderedDict.set "True" (OutputInfo.call v true_)
                  (Node.outputs n)) n
        else Node.with_outputs
               (OrderedDict.set "False" (OutputInfo.call v false_)
                  (Node.outputs n)) n))
  /\ (forall v,
        Node.waiting n = true ->
        InputInfo.call false control = Ok v ->
        SwitchNode_run n
        = (Ok tt,
           Node.with_outputs
             (OrderedDict.set "Final" (OutputInfo.call v final)
                (Node.outputs n)) n))
  /\ (Node.waiting n = false -> Node.inProgress n = 0 ->
      SwitchNode_run n = (Ok tt, n)).
Proof.
  intros [Hs Hc Hsw HnF HnT HnFa HF HT HFa]. split; [|split].
  - intros b v Hw Hp Hb Hv. apply truthy_int in Hp.
    unfold SwitchNode_run, bind, get_state. rewrite Hw, Hp. simpl.
    rewrite (getattr_input n "Switch" switch Hsw), Hb.
    destruct (truthy b).
    + rewrite (getattr_output n "True" true_ HnT HT).
      rewrite (getattr_input n "Start" start Hs), Hv.
      by apply call_output.
    + rewrite (getattr_output n "False" false_ HnFa HFa).
      rewrite (getattr_input n "Start" start Hs), Hv.
      by apply call_output.
  - intros v Hw Hv.
    unfold SwitchNode_run, bind, get_state. rewrite Hw. simpl.
    rewrite (getattr_output n "Final" final HnF HF).
    rewrite (getattr_input n "Control" control Hc), Hv.
    by apply call_output.
  - intros Hw Hp. unfold SwitchNode_run, bind, get_state.
    by rewrite Hw, Hp.
Qed.

(** X1: [SwitchNode.run]. In the dispatch phase ([waiting] false, counter
    not [0]) it writes what [Start] reads to [True] when [Switch] reads
    truthy and to [False] otherwise, and to nothing else; when [waiting] it
    writes what [Control] reads to [Final]; with [waiting] false and the
    counter at [0] it does nothing. *)
Theorem SwitchNode_run_spec (n : Node.t)
    (start control switch final true_ false_ : Info.t) :
  Switch_slots n start control switch final true_ false_ ->
  (forall b v,
     Node.waiting n = false -> Node.inProgress n <> 0 ->
     InputInfo.call false switch = Ok b ->
     InputInfo.call false start = Ok v ->
     SwitchNode_run n
     = (Ok tt,
        if truthy b
        then Node.with_outputs
               (OrderedDict.set "True" (OutputInfo.call v true_)
                  (Node.outputs n)) n
        else Node.with_outputs
               (OrderedDict.set "False" (OutputInfo.call v false_)
                  (Node.outputs n)) n))
  /\ (forall v,
        Node.waiting n = true ->
        InputInfo.call false control = Ok v ->
        SwitchNode_run n
        = (Ok tt,
           Node.with_outputs
             (OrderedDict.set "Final" (OutputInfo.call v final)
                (Node.outputs n)) n))
  /\ (Node.waiting n = false -> Node.inProgress n = 0 ->
      SwitchNode_run n = (Ok tt, n)).
Proof. apply SwitchNode_run_cases. Qed.

Lemma Switch_instance_slots nodeID p w start control switch final t f :
  Switch_slots (Switch_instance nodeID p w start control switch final t f)
    (slot nodeID "Start" TObject start)
    (slot nodeID "Control" TObject control)
    (slot nodeID "Switch" TBool switch)
    (slot nodeID "Final" TObject final)
    (slot nodeID "True" TObject t)
    (slot nodeID "False" TObject f).
Proof. by constructor. Defined.

Lemma SwitchNode_run_spec_witness :
  OrderedDict.get "False" (Node.outputs (snd (SwitchNode_run
     (Switch_instance "S" 1 false (Some (VInt 7)) None (Some (VBool false))
        None None None))))
  = Some (slot "S" "False" TObject (Some (VInt 7)))
  /\ OrderedDict.get "Final" (Node.outputs (snd (SwitchNode_run
       (Switch_instance "S" 0 true None (Some (VInt 9)) None None None None))))
     = Some (slot "S" "Final" TObject (Some (VInt 9)))
  /\ SwitchNode_run
       (Switch_instance "S" 0 false None None None None None None)
     = (Ok tt, Switch_instance "S" 0 false None None None None None None).
Proof.
  split; [|split].
  - rewrite (proj1 (SwitchNode_run_spec _ _ _ _ _ _ _
                      (Switch_instance_slots "S" 1 false (Some (VInt 7)) None
                         (Some (VBool false)) None None None))
               (VBool false) (VInt 7) eq_refl ltac:(done) eq_refl eq_refl).
    reflexivity.
  - rewrite (proj1 (proj2 (SwitchNode_run_spec _ _ _ _ _ _ _
                      (Switch_instance_slots "S" 0 true None (Some (VInt 9))
                         None None None None)))
               (VInt 9) eq_refl eq_refl).
    reflexivity.
  - exact (proj2 (proj2 (SwitchNode_run_spec _ _ _ _ _ _ _
                      (Switch_instance_slots "S" 0 false None None None None
                         None None)))
             eq_refl eq_refl).
Defined.

(** X2: [SwitchNode.check] on a node that has the [Control] input never
    raises. While the counter is not [0] it ignores [Control]: it answers
    [True] when every other input was set and [False] otherwise. With the
    counter at [0] it answers [True] when the node is waiting and [Control]
    was set, and [None] otherwise, never [False]. *)
Theorem SwitchNode_check_spec (n : Node.t) (control : Info.t) :
  OrderedDict.get "Control" (Node.inputs n) = Some control ->
  (Node.inProgress n <> 0 ->
     (Forall (fun i => Info.name i = "Control" \/ Info.valueSet i = true)
        (OrderedDict.values (Node.inputs n)) ->
      SwitchNode_check n = Ok (Some true))
     /\ (Exists (fun i => Info.name i <> "Control" /\ Info.valueSet i = false)
           (OrderedDict.values (Node.inputs n)) ->
         SwitchNode_check n = Ok (Some false)))
  /\ (Node.inProgress n = 0 ->
      SwitchNode_check n
      = Ok (if Node.waiting n && Info.valueSet control
            then Some true else None)).
Proof.
  intros Hc. unfold SwitchNode_check. split.
  - intros Hp. apply truthy_int in Hp. rewrite Hp. split.
    + intros H. apply check_inputs_but_Control_true in H. by rewrite H.
    + intros H. apply check_inputs_but_Control_false in H. by rewrite H.
  - intros ->. simpl. rewrite Hc. by destruct (Node.waiting n).
Qed.

Lemma SwitchNode_check_spec_witness :
  SwitchNode_check
    (Switch_instance "S" 1 false (Some (VInt 7)) None (Some (VBool true))
       None None None)
  = Ok (Some true)
  /\ SwitchNode_check
       (Switch_instance "S" 1 false None None (Some (VBool true))
          None None None)
     = Ok (Some false)
  /\ SwitchNode_check
       (Switch_instance "S" 0 true None None None None None None)
     = Ok None.
Proof.
  split; [|split].
  - apply (SwitchNode_check_spec
             (Switch_instance "S" 1 false (Some (VInt 7)) None
                (Some (VBool true)) None None None)
             (slot "S" "Control" TObject None) eq_refl);
      [done|].
    repeat constructor; (by right) || (by left).
  - apply (proj1 (SwitchNode_check_spec
                    (Switch_instance "S" 1 false None None (Some (VBool true))
                       None None None)
                    (slot "S" "Control" TObject None) eq_refl));
      [done|].
    left. by split.
  - exact (proj2 (SwitchNode_check_spec
                    (Switch_instance "S" 0 true None None None None None None)
                    (slot "S" "Control" TObject None) eq_refl) eq_refl).
Defined.

(** X3: the admission test is enough for [SwitchNode.run]: on a node whose
    [Start] and [Switch] slots carry their own names and which is not
    waiting with a non-zero counter, whenever [check] answers [True], [run]
    completes without raising. *)
Theorem SwitchNode_check_admits_run (n : Node.t)
    (start control switch final true_ false_ : Info.t) :
  Switch_slots n start control switch final true_ false_ ->
  Info.name start = "Start" -> Info.name switch = "Switch" ->
  (Node.waiting n = true -> Node.inProgress n = 0) ->
  SwitchNode_check n = Ok (Some true) ->
  exists n', SwitchNode_run n = (Ok tt, n').
Proof.
  intros Hslots Hns Hnsw Hphase Hcheck.
  pose proof (SwitchNode_run_cases n _ _ _ _ _ _ Hslots) as (Hd & Hr & _).
  destruct Hslots as [Hs Hc Hsw _ _ _ _ _ _].
  unfold SwitchNode_check in Hcheck.
  destruct (truthy (VInt (Node.inProgress n))) eqn:Hp.
  - apply truthy_int in Hp.
    assert (Node.waiting n = false) as Hw.
    { destruct (Node.waiting n); [|done]. by specialize (Hphase eq_refl). }
    injection Hcheck as Hall. apply check_inputs_but_Control_true in Hall.
    rewrite Forall_forall in Hall.
    destruct (Hall start (get_Some_values _ _ _ Hs)) as [?|Hvs]; [congruence|].
    destruct (Hall switch (get_Some_values _ _ _ Hsw)) as [?|Hvsw];
      [congruence|].
    eexists. apply (Hd (Info.value switch) (Info.value start)); [done..| |].
    + unfold InputInfo.call. by rewrite Hvsw.
    + unfold InputInfo.call. by rewrite Hvs.
  - destruct (Node.waiting n) eqn:Hw; [|done].
    rewrite Hc in Hcheck. destruct (Info.valueSet control) eqn:Hv; [|done].
    eexists. apply (Hr (Info.value control)); [done|].
    unfold InputInfo.call. by rewrite Hv.
Qed.

Lemma SwitchNode_check_admits_run_witness :
  exists n',
    SwitchNode_run
      (Switch_instance "S" 1 false (Some (VInt 7)) None (Some (VBool true))
         None None None)
    = (Ok tt, n').
Proof.
  apply (SwitchNode_check_admits_run _ _ _ _ _ _ _
           (Switch_instance_slots "S" 1 false (Some (VInt 7)) None
              (Some (VBool true)) None None None));
    done.
Defined.

(** ** [Loop.check] and [Loop.run] *)

(** What [Loop.run] does, case by case; a slot "cannot be read" when
    [InputInfo.__call__] raises. *)
Lemma Loop_run_cases (n : Node.t)
    (start control iterations final loopBody : Info.t) :
  Loop_slots n start control iterations final loopBody ->
  (forall v, InputInfo.call false control = Ok v ->
     Loop_run n
     = (Ok tt,
        if 1 <? Node.inProgress n
        then Node.with_outputs
               (OrderedDict.set "LoopBody" (OutputInfo.call v loopBody)
                  (Node.outputs n)) n
        else Node.with_outputs
               (OrderedDict.set "Final" (OutputInfo.call v final)
                  (Node.outputs n)) n))
  /\ (InputInfo.call false control = Raise InputNotAvailable ->
      (InputInfo.call false iterations = Raise InputNotAvailable ->
       Loop_run n = (Raise InputNotAvailable, n))
      /\ (forall it e,
            InputInfo.call false iterations = Ok it ->
            add_one it = Raise e ->
            Loop_run n = (Raise e, n))
      /\ (forall it p,
            InputInfo.call false iterations = Ok it ->
            add_one it = Ok p ->
            let n1 := Node.with_fresh false (Node.with_inProgress p n) in
            (InputInfo.call false start = Raise InputNotAvailable ->
             Loop_run n = (Raise InputNotAvailable, n1))
            /\ (forall v,
                  InputInfo.call false start = Ok v ->
                  Loop_run n
                  = (Ok tt,
                     Node.with_outputs
                       (OrderedDict.set "LoopBody" (OutputInfo.call v loopBody)
                          (Node.outputs n)) n1)))).
Proof.
  intros [Hs Hc Hi HnF HnL HF HL]. split.
  - intros v Hv.
    unfold Loop_run, try_except_InputNotAvailable, bind, get_state.
    destruct (1 <? Node.inProgress n).
    + rewrite (getattr_output n "LoopBody" loopBody HnL HL).
      rewrite (getattr_input n "Control" control Hc), Hv.
      by rewrite (call_output n "LoopBody" loopBody v HL).
    + rewrite (getattr_output n "Final" final HnF HF).
      rewrite (getattr_input n "Control" control Hc), Hv.
      by rewrite (call_output n "Final" final v HF).
  - intros Hcr.
    assert (Hbody :
      Loop_run n
      = (let! it := Node.getattr "Iterations" in
         let! p := lift (add_one it) in
         do! modify (Node.with_inProgress p) in
         do! modify (Node.with_fresh false) in
         let! f := Node.getattr "LoopBody" in
         let! v := Node.getattr "Start" in
         Node.call f v) n).
    { unfold Loop_run, try_except_InputNotAvailable.
      unfold bind at 1. unfold get_state at 1.
      destruct (1 <? Node.inProgress n); unfold bind at 1.
      - rewrite (getattr_output n "LoopBody" loopBody HnL HL).
        unfold bind at 1.
        by rewrite (getattr_input n "Control" control Hc), Hcr.
      - rewrite (getattr_output n "Final" final HnF HF).
        unfold bind at 1.
        by rewrite (getattr_input n "Control" control Hc), Hcr. }
    rewrite Hbody. unfold bind, lift, modify.
    rewrite (getattr_input n "Iterations" iterations Hi).
    split; [|split].
    + by intros ->.
    + intros it e -> He. by rewrite He.
    + intros it p -> Hp. rewrite Hp. simpl.
      set (n1 := Node.with_fresh false (Node.with_inProgress p n)).
      rewrite (getattr_output n1 "LoopBody" loopBody HnL HL).
      rewrite (getattr_input n1 "Start" start Hs). split.
      * by intros ->.
      * intros v ->. by rewrite (call_output n1 "LoopBody" loopBody v HL).
Qed.

Lemma InputInfo_call_raise s e :
  InputInfo.call false s = Raise e -> e = InputNotAvailable.
Proof.
  unfold InputInfo.call.
  destruct (Info.valueSet s); [done|].
  destruct (truthy (Info.default s)); [done|]. by intros [= <-].
Qed.

Lemma InputInfo_call_set s :
  Info.valueSet s = true -> InputInfo.call false s = Ok (Info.value s).
Proof. unfold InputInfo.call. by intros ->. Qed.

(** X4: [Loop.check] on a node that has the [Control] input never raises.
    With the counter above [1] it looks at [Control] only and answers
    [True] or [None]; with the counter at [1] it ignores [Control] and
    answers [True] when every other input was set and [False] otherwise;
    with the counter at [0] or below it answers [None]. *)
Theorem Loop_check_spec (n : Node.t) (control : Info.t) :
  OrderedDict.get "Control" (Node.inputs n) = Some control ->
  (1 < Node.inProgress n ->
     Loop_check n = Ok (if Info.valueSet control then Some true else None))
  /\ (Node.inProgress n = 1 ->
      (Forall (fun i => Info.name i = "Control" \/ Info.valueSet i = true)
         (OrderedDict.values (Node.inputs n)) ->
       Loop_check n = Ok (Some true))
      /\ (Exists (fun i => Info.name i <> "Control" /\ Info.valueSet i = false)
            (OrderedDict.values (Node.inputs n)) ->
          Loop_check n = Ok (Some false)))
  /\ (Node.inProgress n <= 0 -> Loop_check n = Ok None).
Proof.
  intros Hc. unfold Loop_check. split; [|split].
  - intros Hp.
    assert ((0 <? Node.inProgress n) = true) as -> by (apply Z.ltb_lt; lia).
    apply Z.ltb_lt in Hp. by rewrite Hp, Hc.
  - intros ->. simpl. split.
    + intros H. apply check_inputs_but_Control_true in H. by rewrite H.
    + intros H. apply check_inputs_but_Control_false in H. by rewrite H.
  - intros Hp.
    by assert ((0 <? Node.inProgress n) = false) as ->
      by (apply Z.ltb_ge; lia).
Qed.

Lemma Loop_check_spec_witness :
  Loop_check (Loop_instance "L" 3 None (Some (VInt 8)) None) = Ok (Some true)
  /\ Loop_check (Loop_instance "L" 3 (Some (VInt 0)) None (Some (VInt 3)))
     = Ok None
  /\ Loop_check (Loop_instance "L" 1 (Some (VInt 0)) None (Some (VInt 3)))
     = Ok (Some true)
  /\ Loop_check (Loop_instance "L" 1 (Some (VInt 0)) (Some (VInt 8)) None)
     = Ok (Some false)
  /\ Loop_check (Loop_instance "L" 0 (Some (VInt 0)) (Some (VInt 8))
                   (Some (VInt 3)))
     = Ok None.
Proof.
  split; [|split; [|split; [|split]]].
  - exact (proj1 (Loop_check_spec
                    (Loop_instance "L" 3 None (Some (VInt 8)) None)
                    (slot "L" "Control" TObject (Some (VInt 8))) eq_refl)
             ltac:(done)).
  - exact (proj1 (Loop_check_spec
                    (Loop_instance "L" 3 (Some (VInt 0)) None (Some (VInt 3)))
                    (slot "L" "Control" TObject None) eq_refl)
             ltac:(done)).
  - destruct (Loop_check_spec
                (Loop_instance "L" 1 (Some (VInt 0)) None (Some (VInt 3)))
                (slot "L" "Control" TObject None) eq_refl) as (_ & H & _).
    apply (H eq_refl). repeat constructor; (by right) || (by left).
  - destruct (Loop_check_spec
                (Loop_instance "L" 1 (Some (VInt 0)) (Some (VInt 8)) None)
                (slot "L" "Control" TObject (Some (VInt 8))) eq_refl)
      as (_ & H & _).
    apply (H eq_refl). right. right. left. by split.
  - exact (proj2 (proj2 (Loop_check_spec
                    (Loop_instance "L" 0 (Some (VInt 0)) (Some (VInt 8))
                       (Some (VInt 3)))
                    (slot "L" "Control" TObject (Some (VInt 8))) eq_refl))
             ltac:(done)).
Defined.

(** X5: how [Loop.run] fails once [Control] cannot be read. If
    [Iterations] cannot be read either, it raises [InputNotAvailable] and
    the node is as before; if [Iterations] reads a string or [None], it
    raises [TypeError] and the node is as before; if [Iterations] reads the
    integer [k] but [Start] cannot be read, it raises [InputNotAvailable]
    after the counter was already set to [k + 1] (and [fresh] to false),
    no output being written. *)
Theorem Loop_run_failure (n : Node.t)
    (start control iterations final loopBody : Info.t) :
  Loop_slots n start control iterations final loopBody ->
  InputInfo.call false control = Raise InputNotAvailable ->
  (InputInfo.call false iterations = Raise InputNotAvailable ->
   Loop_run n = (Raise InputNotAvailable, n))
  /\ (forall it,
        InputInfo.call false iterations = Ok it ->
        (it = VNone \/ exists s, it = VStr s) ->
        Loop_run n = (Raise TypeError, n))
  /\ (forall k,
        InputInfo.call false iterations = Ok (VInt k) ->
        InputInfo.call false start = Raise InputNotAvailable ->
        exists n',
          Loop_run n = (Raise InputNotAvailable, n')
          /\ Node.inProgress n' = k + 1
          /\ Node.fresh n' = Some false
          /\ Node.outputs n' = Node.outputs n
          /\ Node.inputs n' = Node.inputs n).
Proof.
  intros Hslots Hcr.
  destruct (proj2 (Loop_run_cases n _ _ _ _ _ Hslots) Hcr) as (H1 & H2 & H3).
  split; [done|]. split.
  - intros it Hit [->|[s ->]]; by apply (H2 _ _ Hit).
  - intros k Hit Hst. eexists. split.
    + by apply (H3 (VInt k) (k + 1) Hit eq_refl).
    + done.
Qed.

Lemma Loop_run_failure_witness :
  Loop_run (Loop_instance "L" 1 None None None)
  = (Raise InputNotAvailable, Loop_instance "L" 1 None None None)
  /\ Loop_run (Loop_instance "L" 1 None None (Some (VStr "3")))
     = (Raise TypeError, Loop_instance "L" 1 None None (Some (VStr "3")))
  /\ exists n',
       Loop_run (Loop_instance "L" 1 None None (Some (VInt 3)))
       = (Raise InputNotAvailable, n')
       /\ Node.inProgress n' = 3 + 1.
Proof.
  split; [|split].
  - exact (proj1 (Loop_run_failure _ _ _ _ _ _
                    (Loop_instance_slots "L" 1 None None None) eq_refl)
             eq_refl).
  - exact (proj1 (proj2 (Loop_run_failure _ _ _ _ _ _
                    (Loop_instance_slots "L" 1 None None (Some (VStr "3")))
                    eq_refl))
             (VStr "3") eq_refl (or_intror (ex_intro _ "3" eq_refl))).
  - destruct (proj2 (proj2 (Loop_run_failure _ _ _ _ _ _
                    (Loop_instance_slots "L" 1 None None (Some (VInt 3)))
                    eq_refl))
                3 eq_refl eq_refl) as (n' & Hr & Hp & _).
    exists n'. by split.
Defined.

(** X6: the admission test is enough for [Loop.run]: on a node whose
    [Start] and [Iterations] slots carry their own names and whose
    [Iterations] holds an integer, whenever [check] answers [True], [run]
    completes without raising. *)
Theorem Loop_check_admits_run (n : Node.t)
    (start control iterations final loopBody : Info.t) (k : Z) :
  Loop_slots n start control iterations final loopBody ->
  Info.name start = "Start" -> Info.name iterations = "Iterations" ->
  Info.value iterations = VInt k ->
  Loop_check n = Ok (Some true) ->
  exists n', Loop_run n = (Ok tt, n').
Proof.
  intros Hslots Hns Hni Hk Hcheck.
  destruct (Loop_run_cases n _ _ _ _ _ Hslots) as (Hok & Hfail).
  destruct Hslots as [Hs Hc Hi _ _ _ _].
  unfold Loop_check in Hcheck.
  destruct (0 <? Node.inProgress n); [|done].
  destruct (1 <? Node.inProgress n) eqn:Hp1.
  - rewrite Hc in Hcheck. destruct (Info.valueSet control) eqn:Hv; [|done].
    eexists. apply Hok. by apply InputInfo_call_set.
  - injection Hcheck as Hall. apply check_inputs_but_Control_true in Hall.
    rewrite Forall_forall in Hall.
    destruct (Hall start (get_Some_values _ _ _ Hs)) as [?|Hvs]; [congruence|].
    destruct (Hall iterations (get_Some_values _ _ _ Hi)) as [?|Hvi];
      [congruence|].
    destruct (InputInfo.call false control) as [v|e] eqn:Hcall.
    + eexists. by apply Hok.
    + apply InputInfo_call_raise in Hcall as Heq. subst e.
      destruct (Hfail eq_refl) as (_ & _ & H3).
      eexists.
      apply (H3 (VInt k) (k + 1)); [|done|].
      * rewrite <- Hk. by apply InputInfo_call_set.
      * by apply InputInfo_call_set.
Qed.

Lemma Loop_check_admits_run_witness :
  exists n',
    Loop_run (Loop_instance "L" 1 (Some (VInt 0)) None (Some (VInt 3)))
    = (Ok tt, n').
Proof.
  apply (Loop_check_admits_run _ _ _ _ _ _ 3
           (Loop_instance_slots "L" 1 (Some (VInt 0)) None (Some (VInt 3))));
    done.
Defined.

(** ** [SwitchNode.notify], the other cases *)

(** X7: [SwitchNode.notify] in the rejoin phase ([waiting] true) pushes the
    value of [Final] into the targets of the connections of [Final], which
    exist and hold no value yet, and into no other input slot of any node
    (its own [Control] included, which stays set); it sets [waiting] to
    false and the counter to [0], after which [check] answers [None]. *)
Theorem SwitchNode_notify_rejoin (g : Graph.t) (w : World) (self : string)
    (me : Node.t) (final : Info.t) :
  w !! self = Some me ->
  Node.waiting me = true ->
  OrderedDict.get "Final" (Node.outputs me) = Some final ->
  Info.name final = "Final" ->
  (forall con, con ∈ Graph.getConnectionsOfOutput g final ->
     exists inp, input_slot w (Graph.inputNode con) (Graph.inputName con)
                 = Some inp
                 /\ Info.valueSet inp = false) ->
  NoDup (target <$> Graph.getConnectionsOfOutput g final) ->
  exists w' me',
    SwitchNode_notify g self w = (Ok tt, w')
    /\ w' !! self = Some me'
    /\ Node.waiting me' = false
    /\ Node.inProgress me' = 0
    /\ Node.outputs me' = Node.outputs me
    /\ SwitchNode_check me' = Ok None
    /\ (forall con, con ∈ Graph.getConnectionsOfOutput g final ->
          exists inp,
            input_slot w (Graph.inputNode con) (Graph.inputName con)
            = Some inp
            /\ input_slot w' (Graph.inputNode con) (Graph.inputName con)
               = Some (Info.with_value true (Info.value final) inp))
    /\ (forall m i, (m, i) ∉ target <$> Graph.getConnectionsOfOutput g final ->
          input_slot w' m i = input_slot w m i).
Proof.
  intros Hme Hwait Hout Hname Htgt Hnd.
  set (me0 := Node.with_inProgress 0 me).
  set (w0 := <[self := me0]> w).
  assert (Hme0 : w0 !! self = Some me0) by apply lookup_insert_eq.
  assert (Hslot0 : forall m i, input_slot w0 m i = input_slot w m i).
  { intros m i. by apply (input_slot_insert_same_inputs w self me). }
  destruct (push_ok self Info.value (Node.outputs me)
              (Graph.getConnectionsOfOutput g final) w0)
    as (w1 & Hrun & Hfr & Hset & Hother).
  { by exists me0. }
  { intros con Hcon. rewrite (elem_of_getConnectionsOfOutput _ _ _ Hcon).
    rewrite Hname. eauto. }
  { intros con Hcon. rewrite Hslot0. by apply Htgt. }
  { done. }
  destruct (same_frames_lookup _ _ _ _ Hfr Hme0)
    as (me1 & Hme1 & _ & Ho1 & Hp1 & _ & _ & _).
  exists (<[self := Node.with_waiting false me1]> w1),
         (Node.with_waiting false me1).
  split; [|split; [|split; [|split; [|split; [|split; [|split]]]]]].
  - unfold SwitchNode_notify. unfold bind at 1.
    rewrite (on_node_modify w self me) by done. fold me0. fold w0.
    unfold bind at 1. unfold lookup_node at 1. rewrite Hme0.
    change (Node.waiting me0) with (Node.waiting me). rewrite Hwait. simpl.
    unfold bind at 1.
    rewrite (output_of_ok w0 self me0 "Final" final) by done.
    unfold bind at 1.
    change (propagate g self final)
      with (push self Info.value (Graph.getConnectionsOfOutput g final)).
    rewrite Hrun. by apply on_node_modify.
  - apply lookup_insert_eq.
  - done.
  - simpl. by rewrite <- Hp1.
  - simpl. by rewrite <- Ho1.
  - unfold SwitchNode_check. simpl. by rewrite <- Hp1.
  - intros con Hcon. destruct (Hset con Hcon) as (out' & inp & Ho & Hi & Hf).
    rewrite Hslot0 in Hi.
    rewrite (elem_of_getConnectionsOfOutput _ _ _ Hcon), Hname in Ho.
    assert (out' = final) as -> by congruence.
    exists inp. split; [done|].
    by rewrite (input_slot_insert_same_inputs w1 self me1).
  - intros m i Hni.
    rewrite (input_slot_insert_same_inputs w1 self me1) by done.
    rewrite Hother by done. apply Hslot0.
Qed.

Lemma rejoin_connections_Final :
  Graph.getConnectionsOfOutput rejoin_graph
    (slot "S" "Final" TObject (Some (VInt 8)))
  = [Graph.mkConnection "S" "Final" "E" "In"].
Proof. reflexivity. Defined.

Lemma SwitchNode_notify_rejoin_witness :
  exists w' me',
    SwitchNode_notify rejoin_graph "S" rejoin_world = (Ok tt, w')
    /\ w' !! "S" = Some me'
    /\ Node.waiting me' = false
    /\ Node.inProgress me' = 0
    /\ input_slot w' "E" "In" = Some (slot "E" "In" TObject (Some (VInt 8)))
    /\ input_slot w' "S" "Control"
       = Some (slot "S" "Control" TObject (Some (VInt 8))).
Proof.
  destruct (SwitchNode_notify_rejoin rejoin_graph rejoin_world "S" rejoin_S
              (slot "S" "Final" TObject (Some (VInt 8))))
    as (w' & me' & Hrun & Hme' & Hw & Hp & _ & _ & Hset & Hother);
    try reflexivity.
  - rewrite rejoin_connections_Final.
    intros con ->%list_elem_of_singleton. eexists. split; reflexivity.
  - rewrite rejoin_connections_Final. apply NoDup_singleton.
  - exists w', me'. repeat split; [done..| |].
    + destruct (Hset (Graph.mkConnection "S" "Final" "E" "In"))
        as (inp & Hi & Hf).
      * rewrite rejoin_connections_Final. by apply list_elem_of_singleton.
      * simpl in Hi, Hf. rewrite Hf. f_equal. by injection Hi as <-.
    + rewrite Hother; [reflexivity|].
      rewrite rejoin_connections_Final. simpl.
      intros Hin%list_elem_of_singleton. discriminate Hin.
Defined.

(** X8: [SwitchNode.notify] sets the counter to [0] before it reads
    [Switch]: in the dispatch phase, when [Switch] was not set and has no
    truthy default, the call raises [InputNotAvailable] and nothing has
    changed but the counter of the node, which is [0]. The node is then
    neither in progress nor waiting, and its [check] answers [None]
    whatever its inputs hold. *)
Theorem SwitchNode_notify_unreadable_Switch (g : Graph.t) (w : World)
    (self : string) (me : Node.t) (switch : Info.t) :
  w !! self = Some me ->
  Node.waiting me = false ->
  OrderedDict.get "Switch" (Node.inputs me) = Some switch ->
  Info.valueSet switch = false ->
  truthy (Info.default switch) = false ->
  SwitchNode_notify g self w
  = (Raise InputNotAvailable, <[self := Node.with_inProgress 0 me]> w)
  /\ forall inputs,
       SwitchNode_check
         (Node.with_inputs inputs (Node.with_inProgress 0 me))
       = Ok None.
Proof.
  intros Hme Hwait Hsw Hvs Hd. split.
  - set (me0 := Node.with_inProgress 0 me).
    set (w0 := <[self := me0]> w).
    assert (Hme0 : w0 !! self = Some me0) by apply lookup_insert_eq.
    unfold SwitchNode_notify. unfold bind at 1.
    rewrite (on_node_modify w self me) by done. fold me0. fold w0.
    unfold bind at 1. unfold lookup_node at 1. rewrite Hme0.
    change (Node.waiting me0) with (Node.waiting me). rewrite Hwait. simpl.
    unfold bind at 1.
    rewrite (on_node_getattr_input w0 self me0 "Switch" switch) by done.
    unfold InputInfo.call. by rewrite Hvs, Hd.
  - intros inputs. unfold SwitchNode_check. simpl. by rewrite Hwait.
Qed.

Lemma SwitchNode_notify_unreadable_Switch_witness :
  SwitchNode_notify switch_graph "S"
    (<["S" := Switch_instance "S" 1 false (Some (VInt 7)) None None
                None None None]> switch_world)
  = (Raise InputNotAvailable,
     <["S" := Switch_instance "S" 0 false (Some (VInt 7)) None None
                None None None]>
       (<["S" := Switch_instance "S" 1 false (Some (VInt 7)) None None
                   None None None]> switch_world)).
Proof.
  apply (SwitchNode_notify_unreadable_Switch switch_graph _ "S"
           (Switch_instance "S" 1 false (Some (VInt 7)) None None
              None None None)
           (slot "S" "Switch" TBool None)); reflexivity.
Defined.

(** ** [Node.prepare] *)

(** X9: [Node.prepare] twice is [Node.prepare] once, and [check] right
    after [prepare] answers [True] when the node has no input at all and
    [False] when it has one: defaults do not count as set. *)
Theorem Node_prepare_idempotent (n : Node.t) :
  Node.prepare (Node.prepare n) = Node.prepare n
  /\ Node.check (Node.prepare n) = Some (bool_decide (Node.inputs n = [])).
Proof.
  split.
  - unfold Node.prepare, Node.with_inputs, Node.with_inProgress. simpl.
    by rewrite map_values_reset_idemp.
  - unfold Node.check. simpl. f_equal.
    destruct (Node.inputs n) as [|[k i] d]; reflexivity.
Qed.

(** X10: [Node.prepare] does not bring a waiting [SwitchNode] back to the
    dispatch phase. Prepared while [waiting] is true and then given [Start]
    and [Switch], the node passes [check], yet [run] takes the rejoin
    branch, reads the [Control] that [prepare] has just reset, and raises
    [InputNotAvailable] without writing any output. *)
Theorem SwitchNode_prepare_while_waiting (n : Node.t)
    (start control switch final : Info.t) (v b : pyval) :
  Node.inputs n
  = [("Start", start); ("Control", control); ("Switch", switch)] ->
  Info.name start = "Start" ->
  Info.name control = "Control" ->
  Info.name switch = "Switch" ->
  OrderedDict.get "Final" (Node.outputs n) = Some final ->
  Node.waiting n = true ->
  truthy (Info.default control) = false ->
  exists n1 n2,
    Node.setInput "Start" v false (Node.prepare n) = (Ok tt, n1)
    /\ Node.setInput "Switch" b false n1 = (Ok tt, n2)
    /\ SwitchNode_check n2 = Ok (Some true)
    /\ SwitchNode_run n2 = (Raise InputNotAvailable, n2).
Proof.
  intros Hin Hns Hnc Hnsw HF Hw Hd.
  destruct n as [id ins outs p wt fr]. simpl in *. subst ins wt.
  eexists _, _. split; [reflexivity|]. split; [reflexivity|]. split.
  - unfold SwitchNode_check. simpl. rewrite Hns, Hnc, Hnsw. reflexivity.
  - unfold SwitchNode_run, bind, get_state. simpl.
    unfold Node.getattr. simpl. rewrite HF. simpl.
    unfold InputInfo.call. simpl. by rewrite Hd.
Qed.

Lemma SwitchNode_prepare_while_waiting_witness :
  exists n1 n2,
    Node.setInput "Start" (VInt 1) false (Node.prepare rejoin_S) = (Ok tt, n1)
    /\ Node.setInput "Switch" (VBool true) false n1 = (Ok tt, n2)
    /\ SwitchNode_check n2 = Ok (Some true)
    /\ SwitchNode_run n2 = (Raise InputNotAvailable, n2).
Proof.
  apply (SwitchNode_prepare_while_waiting rejoin_S
           (slot "S" "Start" TObject (Some (VInt 7)))
           (slot "S" "Control" TObject (Some (VInt 8)))
           (slot "S" "Switch" TBool (Some (VBool true)))
           (slot "S" "Final" TObject (Some (VInt 8))));
    reflexivity.
Defined.

(** ** [Node.notify], whatever the successors hold *)

Lemma setInput_same_frame i v o n r n' :
  Node.setInput i v o n = (r, n') -> same_frame n n'.
Proof.
  unfold Node.setInput.
  destruct (OrderedDict.get i (Node.inputs n)) as [inp|] eqn:Hi.
  - destruct (InputInfo.set v o inp) as [r0 inp']. intros [= _ <-].
    repeat split; simpl. symmetry. apply keys_set_present. eauto.
  - intros [= _ <-]. apply same_frame_refl.
Qed.

Lemma on_node_setInput_same_frames (w : World) m i v o r w' :
  on_node m (Node.setInput i v o) w = (r, w') -> same_frames w w'.
Proof.
  unfold on_node. destruct (w !! m) as [n|] eqn:Hm.
  - destruct (Node.setInput i v o n) as [r0 n'] eqn:Hs. intros [= _ <-] m'.
    destruct (decide (m = m')) as [<-|Hne].
    + rewrite lookup_insert_eq, Hm. constructor.
      by apply (setInput_same_frame _ _ _ _ _ _ Hs).
    + rewrite lookup_insert_ne by done.
      destruct (w !! m'); constructor. apply same_frame_refl.
  - intros [= _ <-]. apply same_frames_refl.
Qed.

Lemma on_node_lookup_ne {A} (w : World) m (f : M Node.t A) r w' m' :
  on_node m f w = (r, w') -> m <> m' -> w' !! m' = w !! m'.
Proof.
  unfold on_node. destruct (w !! m) as [n|].
  - destruct (f n) as [r0 n']. intros [= _ <-] Hne.
    by rewrite lookup_insert_ne.
  - by intros [= _ <-].
Qed.

Lemma output_of_state self k (w : World) : snd (output_of self k w) = w.
Proof.
  unfold output_of, bind, lookup_node. destruct (w !! self) as [me|]; [|done].
  by destruct (OrderedDict.get k (Node.outputs me)).
Qed.

(** A propagation loop, whether it completes or stops at an exception,
    writes to input slots only, and only to those of the nodes its
    connections lead to. *)
Lemma push_frames self F conns : forall (w : World) r w',
  push self F conns w = (r, w') ->
  same_frames w w'
  /\ (forall m, m ∉ Graph.inputNode <$> conns -> w' !! m = w !! m).
Proof.
  induction conns as [|c l IH]; intros w r w'.
  - intros [= _ <-]. split; [apply same_frames_refl | done].
  - unfold push. simpl. unfold bind at 1. unfold bind at 1.
    pose proof (output_of_state self (Graph.outputName c) w) as Hst.
    destruct (output_of self (Graph.outputName c) w) as [[out|e] w0];
      simpl in Hst; subst w0.
    + destruct (on_node (Graph.inputNode c)
                  (Node.setInput (Graph.inputName c) (F out) false) w)
        as [[[]|e] w1] eqn:Hstep.
      * intros Hrest. destruct (IH w1 r w' Hrest) as [Hfr Hoth]. split.
        -- eapply same_frames_trans; [|exact Hfr].
           by apply (on_node_setInput_same_frames _ _ _ _ _ _ _ Hstep).
        -- intros m Hm. apply not_elem_of_cons in Hm as [Hne Hm]. rewrite Hoth by done.
           apply (on_node_lookup_ne _ _ _ _ _ _ Hstep). congruence.
      * intros [= _ <-]. split.
        -- by apply (on_node_setInput_same_frames _ _ _ _ _ _ _ Hstep).
        -- intros m Hm. apply not_elem_of_cons in Hm as [Hne Hm].
           apply (on_node_lookup_ne _ _ _ _ _ _ Hstep). congruence.
    + intros [= _ <-]. split; [apply same_frames_refl | done].
Qed.

(** [Node.notify] is its propagation loop followed by the two updates of
    the node itself. *)
Lemma Node_notify_unfold g (w : World) self me :
  w !! self = Some me ->
  Node_notify g self w
  = (do! push self
           (fun out => if Info.valueSet out then Info.value out
                       else Info.default out)
           (Graph.getConnectionsFrom g me) in
     do! on_node self
           (modify (fun n =>
              Node.with_inputs
                (OrderedDict.map_values Info.reset (Node.inputs n)) n)) in
     on_node self
       (modify (fun n => Node.with_inProgress (Node.inProgress n - 1) n))) w.
Proof.
  intros Hme. unfold Node_notify. unfold bind at 1.
  unfold lookup_node at 1. rewrite Hme. unfold bind at 1 4.
  unfold push.
  rewrite (for_each_ext _ _
             (fun con =>
                let! out := output_of self (Graph.outputName con) in
                on_node (Graph.inputNode con)
                  (Node.setInput (Graph.inputName con)
                     (if Info.valueSet out then Info.value out
                      else Info.default out) false))); [done|].
  intros con s. unfold bind.
  destruct (output_of self (Graph.outputName con) s) as [[out|e] s']; [|done].
  by destruct (Info.valueSet out).
Qed.

Lemma bind_Ok_inv {S A B} (m : M S A) (k : A -> M S B) s b s' :
  bind m k s = (Ok b, s') ->
  exists a s1, m s = (Ok a, s1) /\ k a s1 = (Ok b, s').
Proof.
  unfold bind. destruct (m s) as [[a|e] s1]; [eauto | done].
Qed.

(** No method clears the mark of an output. Through a whole round,
    [prepare()], the writes of [run()] and [notify()], an output that was
    marked as written before is marked as written after: the mark of an
    output says that it was written at some time since the node was
    created. *)
Lemma writes_keep_written self writes : forall (w w' : World) me k out,
  w !! self = Some me ->
  OrderedDict.get k (Node.outputs me) = Some out ->
  Info.valueSet out = true ->
  for_each writes (fun kv =>
    on_node self (Node.call (VInfo (fst kv)) (snd kv))) w = (Ok tt, w') ->
  exists me' out',
    w' !! self = Some me'
    /\ OrderedDict.get k (Node.outputs me') = Some out'
    /\ Info.valueSet out' = true.
Proof.
  induction writes as [|[k' v] writes IH]; intros w w' me k out Hme Hk Hv.
  - intros [= <-]. eauto.
  - simpl. intros (? & w1 & Hstep & Hrest)%bind_Ok_inv.
    unfold on_node in Hstep. rewrite Hme in Hstep. unfold Node.call in Hstep.
    destruct (OrderedDict.get k' (Node.outputs me)) as [o|] eqn:Ho; [|done].
    injection Hstep as _ <-.
    destruct (decide (k' = k)) as [->|Hne].
    + eapply (IH _ _ _ k (OutputInfo.call v o));
        [apply lookup_insert_eq| |done|exact Hrest].
      simpl. apply get_set_eq.
    + eapply (IH _ _ _ k out);
        [apply lookup_insert_eq| |exact Hv|exact Hrest].
      simpl. by rewrite get_set_ne.
Qed.

Lemma round_keeps_written g self writes (w w' : World) me k out :
  w !! self = Some me ->
  OrderedDict.get k (Node.outputs me) = Some out ->
  Info.valueSet out = true ->
  round g self writes w = (Ok tt, w') ->
  exists me' out',
    w' !! self = Some me'
    /\ OrderedDict.get k (Node.outputs me') = Some out'
    /\ Info.valueSet out' = true.
Proof.
  intros Hme Hk Hv. unfold round.
  intros (? & w1 & Hprep & Hrun)%bind_Ok_inv.
  rewrite (on_node_modify w self me) in Hprep by done.
  injection Hprep as _ <-.
  apply bind_Ok_inv in Hrun as ([] & w2 & Hwrites & Hnotify).
  destruct (writes_keep_written self writes _ w2 (Node.prepare me) k out
              (lookup_insert_eq _ _ _) Hk Hv Hwrites)
    as (me2 & out2 & Hme2 & Hk2 & Hv2).
  rewrite (Node_notify_unfold g w2 self me2 Hme2) in Hnotify.
  apply bind_Ok_inv in Hnotify as (? & w3 & Hpush & Hnotify).
  destruct (push_frames _ _ _ _ _ _ Hpush) as [Hfr _].
  destruct (same_frames_lookup _ _ _ _ Hfr Hme2)
    as (me3 & Hme3 & _ & Ho3 & _).
  unfold bind in Hnotify.
  rewrite (on_node_modify w3 self me3) in Hnotify by done.
  rewrite (on_node_modify _ self _) in Hnotify by apply lookup_insert_eq.
  injection Hnotify as <-.
  eexists _, out2. split; [apply lookup_insert_eq|]. simpl.
  by rewrite <- Ho3.
Qed.

(** X11: when [Node.notify] raises, which it does when a successor's input
    already holds a value or does not exist, the notifying node, if no
    connection leads back to it, is exactly as it was: its inputs are not
    reset and its counter is not decremented. No node has changed but in
    what its input slots hold. *)
Theorem Node_notify_failure (g : Graph.t) (w w' : World) (self : string)
    (me : Node.t) (e : exn) :
  w !! self = Some me ->
  (forall con, con ∈ Graph.getConnectionsFrom g me ->
     Graph.inputNode con <> self) ->
  Node_notify g self w = (Raise e, w') ->
  w' !! self = Some me /\ same_frames w w'.
Proof.
  intros Hme Hne. rewrite (Node_notify_unfold g w self me Hme).
  unfold bind at 1.
  destruct (push self _ (Graph.getConnectionsFrom g me) w)
    as [[[]|e1] w1] eqn:Hpush.
  - destruct (push_frames _ _ _ _ _ _ Hpush) as [Hfr _].
    destruct (same_frames_lookup _ _ _ _ Hfr Hme) as (me1 & Hme1 & _).
    unfold bind. rewrite (on_node_modify w1 self me1) by done.
    rewrite (on_node_modify _ self _) by apply lookup_insert_eq. done.
  - intros [= _ <-]. destruct (push_frames _ _ _ _ _ _ Hpush) as [Hfr Hoth].
    split; [|done]. rewrite Hoth; [done|].
    intros [con [Heq Hcon]]%list_elem_of_fmap. by apply (Hne con).
Qed.

Lemma Node_notify_failure_witness :
  exists w',
    Node_notify plain_graph "N" busy_world = (Raise InputAlreadySet, w')
    /\ w' !! "N" = Some plain_N.
Proof.
  destruct (Node_notify plain_graph "N" busy_world) as [r w'] eqn:Hrun.
  assert (r = Raise InputAlreadySet) as ->.
  { change r with (fst (r, w')). rewrite <- Hrun. vm_compute. reflexivity. }
  exists w'. split; [done|].
  apply (Node_notify_failure plain_graph busy_world w' "N" plain_N
           InputAlreadySet); [reflexivity| |exact Hrun].
  intros con ->%list_elem_of_singleton. done.
Defined.

(** X12: whatever its successors are, when [Node.notify] completes the
    notifying node has its counter one less and every input reset, so that
    a node that has inputs does not pass [check] again before it is fed
    again. *)
Theorem Node_notify_then_check (g : Graph.t) (w w' : World) (self : string)
    (me : Node.t) :
  w !! self = Some me ->
  Node_notify g self w = (Ok tt, w') ->
  exists me',
    w' !! self = Some me'
    /\ Node.inProgress me' = Node.inProgress me - 1
    /\ Forall (fun i => Info.valueSet i = false /\ Info.value i = VNone)
         (OrderedDict.values (Node.inputs me'))
    /\ OrderedDict.keys (Node.inputs me') = OrderedDict.keys (Node.inputs me)
    /\ Node.outputs me' = Node.outputs me
    /\ (Node.inputs me <> [] -> Node.check me' <> Some true).
Proof.
  intros Hme. rewrite (Node_notify_unfold g w self me Hme).
  unfold bind at 1.
  destruct (push self _ (Graph.getConnectionsFrom g me) w)
    as [[[]|e1] w1] eqn:Hpush; [|done].
  destruct (push_frames _ _ _ _ _ _ Hpush) as [Hfr _].
  destruct (same_frames_lookup _ _ _ _ Hfr Hme)
    as (me1 & Hme1 & _ & Ho1 & Hp1 & _ & _ & Hk1).
  unfold bind. rewrite (on_node_modify w1 self me1) by done.
  rewrite (on_node_modify _ self _) by apply lookup_insert_eq.
  intros [= <-]. eexists. split; [apply lookup_insert_eq|].
  simpl. split; [by rewrite Hp1|]. split; [|split; [|split]].
  - rewrite values_map_values. apply Forall_forall.
    intros i [j [-> _]]%list_elem_of_fmap. by destruct j.
  - by rewrite keys_map_values.
  - done.
  - intros Hne.
    assert (Node.inputs me1 <> []) as Hne1.
    { intros H1. rewrite H1 in Hk1. apply Hne.
      by destruct (Node.inputs me). }
    unfold Node.check. simpl.
    destruct (negb (Node.inProgress me1 - 1 =? 0)); [|discriminate].
    destruct (Node.inputs me1) as [|[k i] d]; [by destruct Hne1|].
    simpl. discriminate.
Qed.

Lemma Node_notify_then_check_witness :
  exists w' me',
    Node_notify plain_graph "N" plain_world = (Ok tt, w')
    /\ w' !! "N" = Some me'
    /\ Node.inProgress me' = 1 - 1
    /\ Node.check me' <> Some true.
Proof.
  destruct (Node_notify plain_graph "N" plain_world) as [r w'] eqn:Hrun.
  assert (r = Ok tt) as ->.
  { change r with (fst (r, w')). rewrite <- Hrun. vm_compute. reflexivity. }
  destruct (Node_notify_then_check plain_graph plain_world w' "N" plain_N
              eq_refl Hrun) as (me' & Hme' & Hp & _ & _ & _ & Hc).
  exists w', me'. repeat split; [done..|]. by apply Hc.
Defined.

(** ** [Loop.notify], whatever the graph *)

Lemma on_node_reset_Control_inv (w w' : World) m :
  on_node m reset_Control w = (Ok tt, w') ->
  exists n c,
    w !! m = Some n
    /\ OrderedDict.get "Control" (Node.inputs n) = Some c
    /\ w' = <[m := Node.with_inputs
                     (OrderedDict.set "Control" (Info.reset c) (Node.inputs n))
                     n]> w.
Proof.
  unfold on_node, reset_Control. destruct (w !! m) as [n|]; [|done].
  destruct (OrderedDict.get "Control" (Node.inputs n)) as [c|] eqn:Hc;
    [|done].
  intros [= <-]. by exists n, c.
Qed.

(** X13: the last thing [Loop.notify] does is to reset [Control]. Whatever
    the graph, a wire from [LoopBody] straight back to [Control] included,
    when the call completes [Control] holds no value, so that with more
    than one round left [check] answers [None]: the loop waits for its
    body to set [Control] again. *)
Theorem Loop_notify_then_check (g : Graph.t) (w w' : World) (self : string) :
  Loop_notify g self w = (Ok tt, w') ->
  exists me' c,
    w' !! self = Some me'
    /\ OrderedDict.get "Control" (Node.inputs me') = Some c
    /\ Info.valueSet c = false
    /\ Info.value c = VNone
    /\ (1 < Node.inProgress me' -> Loop_check me' = Ok None).
Proof.
  unfold Loop_notify. intros Hrun.
  apply bind_Ok_inv in Hrun as (me & w1 & _ & Hrun).
  apply bind_Ok_inv in Hrun as (? & w2 & _ & Hrun).
  apply bind_Ok_inv in Hrun as (? & w3 & _ & Hrun).
  apply on_node_reset_Control_inv in Hrun as (n & c & Hn & Hc & ->).
  eexists _, (Info.reset c). split; [apply lookup_insert_eq|].
  split; [apply get_set_eq|]. split; [done|]. split; [done|].
  simpl. intros Hp. unfold Loop_check. simpl.
  assert ((0 <? Node.inProgress n) = true) as -> by (apply Z.ltb_lt; lia).
  apply Z.ltb_lt in Hp. by rewrite Hp, get_set_eq.
Qed.

Lemma Loop_notify_then_check_witness :
  exists w' me',
    Loop_notify loop_graph "L" (loop_world 3 None) = (Ok tt, w')
    /\ w' !! "L" = Some me'
    /\ Loop_check me' = Ok None.
Proof.
  destruct (Loop_notify loop_graph "L" (loop_world 3 None))
    as [r w'] eqn:Hrun.
  assert (r = Ok tt) as ->.
  { change r with (fst (r, w')). rewrite <- Hrun. vm_compute. reflexivity. }
  assert (Hp : Node.inProgress <$> (w' !! "L") = Some 2).
  { change w' with (snd (Ok tt : result unit, w')). rewrite <- Hrun.
    vm_compute. reflexivity. }
  destruct (Loop_notify_then_check loop_graph _ w' "L" Hrun)
    as (me' & c & Hme' & _ & _ & _ & Hcheck).
  exists w', me'. split; [done|]. split; [done|].
  apply Hcheck. rewrite Hme' in Hp. injection Hp as ->. done.
Defined.

(** ** Classes: what a subclass inherits, and what it declares again *)

Lemma get_add_decls_other decls : forall a d k,
  k ∉ Decl.name <$> decls ->
  OrderedDict.get k (add_decls a decls d) = OrderedDict.get k d.
Proof.
  induction decls as [|x decls IH]; intros a d k Hk; simpl; [done|].
  apply not_elem_of_cons in Hk as [Hne Hk].
  rewrite IH by done. apply get_set_ne. congruence.
Qed.

(** A declared name refers to the object allocated for the last
    declaration of that name. *)
Lemma get_add_decls_declared decls : forall a d k,
  k ∈ Decl.name <$> decls ->
  exists i data,
    OrderedDict.get k (add_decls a decls d) = Some (a + i)%nat
    /\ decls !! i = Some data
    /\ Decl.name data = k.
Proof.
  induction decls as [|x decls IH]; intros a d k Hk; simpl.
  - by apply elem_of_nil in Hk.
  - destruct (decide (k ∈ Decl.name <$> decls)) as [Hin|Hout].
    + destruct (IH (S a) (OrderedDict.set (Decl.name x) a d) k Hin)
        as (i & data & Hg & Hi & Hn).
      exists (S i), data. split; [|done]. rewrite Hg. f_equal. lia.
    + apply elem_of_cons in Hk as [->|Hk]; [|done].
      exists 0%nat, x. rewrite get_add_decls_other by done.
      rewrite get_set_eq. split; [f_equal; lia | done].
Qed.

Lemma keys_add_decls decls : forall a (d : list (string * nat)),
  exists new,
    OrderedDict.keys (add_decls a decls d) = OrderedDict.keys d ++ new.
Proof.
  induction decls as [|x decls IH]; intros a d; simpl.
  - exists []. by rewrite app_nil_r.
  - destruct (IH (S a) (OrderedDict.set (Decl.name x) a d)) as [new Hnew].
    rewrite Hnew.
    destruct (OrderedDict.get (Decl.name x) d) as [y|] eqn:Hg.
    + rewrite keys_set_present by eauto. eauto.
    + rewrite keys_set_absent by done. rewrite <- app_assoc. eauto.
Qed.

(** The state a class statement leaves. *)
Lemma class_stmt_state name base body st :
  let ins0 := match base with Some b => Class.__inputs__ b | None => [] end in
  let outs0 := match base with Some b => Class.__outputs__ b | None => [] end in
  let h := Interp.heap st in
  let h1 := h ++ map Info_of (input_decls body) in
  let cls :=
    {| Class.__name__ := name;
       Class.__inputs__ := add_decls (length h) (input_decls body) ins0;
       Class.__outputs__ := add_decls (length h1) (output_decls body) outs0 |} in
  class_stmt name base body st
  = (Ok cls,
     {| Interp.heap := h1 ++ map Info_of (output_decls body);
        Interp.NODECLASSES :=
          OrderedDict.set name cls (Interp.NODECLASSES st);
        Interp.inputs := input_decls body;
        Interp.outputs := output_decls body |}).
Proof.
  destruct st as [h nc i o]. simpl.
  unfold class_stmt, bind, MetaNode_prepare, modify. simpl.
  rewrite for_each_exec. simpl.
  unfold MetaNode_new, bind, get_state. simpl.
  rewrite fold_addInput. simpl. rewrite fold_addOutput. simpl.
  reflexivity.
Qed.

(** X14: what a subclass inherits. The class built by a class statement
    with a base has the base's inputs in the base's order, followed by the
    names that are new. An input the body does not declare is the base's
    own template object: the two classes share it. An input the body
    declares, inherited or new, is a new template object built from a
    declaration of that name in the body, and an inherited name keeps its
    place in the order. No object that existed is modified, and the class
    is entered in [NODECLASSES] under its name. *)
Theorem class_stmt_inherits (name : string) (base : Class.t)
    (body : list stmt) (st : Interp.t) :
  exists cls st',
    class_stmt name (Some base) body st = (Ok cls, st')
    /\ (exists new,
          OrderedDict.keys (Class.__inputs__ cls)
          = OrderedDict.keys (Class.__inputs__ base) ++ new)
    /\ (forall k, k ∉ Decl.name <$> input_decls body ->
          OrderedDict.get k (Class.__inputs__ cls)
          = OrderedDict.get k (Class.__inputs__ base))
    /\ (forall k, k ∈ Decl.name <$> input_decls body ->
          exists a data,
            OrderedDict.get k (Class.__inputs__ cls) = Some a
            /\ (length (Interp.heap st) <= a)%nat
            /\ data ∈ input_decls body
            /\ Decl.name data = k
            /\ Interp.heap st' !! a = Some (Info_of data))
    /\ (forall a o, Interp.heap st !! a = Some o ->
          Interp.heap st' !! a = Some o)
    /\ OrderedDict.get name (Interp.NODECLASSES st') = Some cls.
Proof.
  eexists _, _. split; [apply class_stmt_state|]. simpl.
  split; [apply keys_add_decls|]. split; [|split; [|split]].
  - intros k Hk. by apply get_add_decls_other.
  - intros k Hk.
    destruct (get_add_decls_declared (input_decls body)
                (length (Interp.heap st)) (Class.__inputs__ base) k Hk)
      as (i & data & Hg & Hi & Hn).
    exists (length (Interp.heap st) + i)%nat, data.
    split; [done|]. split; [lia|].
    split; [by apply (list_elem_of_lookup_2 _ i)|]. split; [done|].
    apply lookup_app_l_Some. rewrite lookup_app_r by lia.
    replace (length (Interp.heap st) + i - length (Interp.heap st))%nat
      with i by lia.
    change (map Info_of (input_decls body))
      with (Info_of <$> input_decls body).
    by rewrite list_lookup_fmap, Hi.
  - intros a o Ha. rewrite <- app_assoc. by apply lookup_app_l_Some.
  - apply get_set_eq.
Qed.

(** ** Instances: slots, pins and identities *)

Lemma keys_set_same {A B} (d : list (string * A)) (d' : list (string * B))
    k v v' :
  OrderedDict.keys d = OrderedDict.keys d' ->
  OrderedDict.keys (OrderedDict.set k v d)
  = OrderedDict.keys (OrderedDict.set k v' d').
Proof.
  intros Hk. destruct (decide (k ∈ OrderedDict.keys d')) as [Hin|Hout].
  - rewrite !keys_set_present; [done|by apply get_is_Some_keys|].
    apply get_is_Some_keys. by rewrite Hk.
  - rewrite !keys_set_absent; [by rewrite Hk|by apply get_None_not_in|].
    apply get_None_not_in. by rewrite Hk.
Qed.

Lemma pinned_app tag h h' nodeID slots pins :
  pinned tag h nodeID slots pins -> pinned tag (h ++ h') nodeID slots pins.
Proof.
  intros [Hk Hp]. split; [done|]. intros k a Hg.
  destruct (Hp k a Hg) as [Hpin (o & Ho & Hrest)]. split; [done|].
  exists o. split; [by apply lookup_app_l_Some | done].
Qed.

Lemma pinned_step tag h nodeID slots pins o :
  pinned tag h nodeID slots pins ->
  pinned tag (h ++ [clone nodeID tag o]) nodeID
    (OrderedDict.set (Info.name o) (length h) slots)
    (OrderedDict.set (Info.name o)
       {| Pin.ID := nodeID +:+ tag +:+ Info.name o; Pin.name := Info.name o;
          Pin.info := length h; Pin.node := nodeID |} pins).
Proof.
  intros [Hk Hp]. split; [by apply keys_set_same|].
  intros k a Hg. destruct (decide (Info.name o = k)) as [<-|Hne].
  - rewrite get_set_eq in Hg. injection Hg as <-. rewrite get_set_eq.
    split; [done|]. exists (clone nodeID tag o).
    split; [by apply list_lookup_middle | done].
  - rewrite get_set_ne in Hg by done. rewrite get_set_ne by done.
    destruct (Hp k a Hg) as [Hpin (o' & Ho' & Hrest)]. split; [done|].
    exists o'. split; [by apply lookup_app_l_Some | done].
Qed.

Lemma fold_init_input_pinned addrs : forall objs self st,
  templates (Interp.heap st) addrs objs ->
  pinned ":I" (Interp.heap st) (Object.ID self)
    (Object.inputs self) (Object.inputPins self) ->
  exists self' st' h',
    fold_m init_input addrs self st = (Ok self', st')
    /\ Interp.heap st' = Interp.heap st ++ h'
    /\ pinned ":I" (Interp.heap st') (Object.ID self)
         (Object.inputs self') (Object.inputPins self')
    /\ Object.ID self' = Object.ID self
    /\ Object.outputs self' = Object.outputs self
    /\ Object.outputPins self' = Object.outputPins self.
Proof.
  induction addrs as [|a addrs IH]; intros objs self st Ht Hpin.
  - exists self, st, []. simpl. by rewrite app_nil_r.
  - inversion Ht as [|? o ? objs' Ha Ht']; subst.
    simpl. unfold bind at 1. rewrite (init_input_step self a o st Ha).
    match goal with
    | |- context [fold_m init_input addrs ?s ?t] =>
        destruct (IH objs' s t)
          as (self' & st' & h' & Hrun & Hh & Hp & Hid & Ho & Hop)
    end.
    { simpl. apply templates_app. exact Ht'. }
    { simpl. by apply pinned_step. }
    exists self', st', (clone (Object.ID self) ":I" o :: h').
    split; [exact Hrun|]. simpl in Hh, Hp, Hid, Ho, Hop.
    split; [by rewrite Hh, <- app_assoc|]. done.
Qed.

Lemma fold_init_output_pinned addrs : forall objs self st,
  templates (Interp.heap st) addrs objs ->
  pinned ":O" (Interp.heap st) (Object.ID self)
    (Object.outputs self) (Object.outputPins self) ->
  exists self' st' h',
    fold_m init_output addrs self st = (Ok self', st')
    /\ Interp.heap st' = Interp.heap st ++ h'
    /\ pinned ":O" (Interp.heap st') (Object.ID self)
         (Object.outputs self') (Object.outputPins self')
    /\ Object.ID self' = Object.ID self
    /\ Object.inputs self' = Object.inputs self
    /\ Object.inputPins self' = Object.inputPins self.
Proof.
  induction addrs as [|a addrs IH]; intros objs self st Ht Hpin.
  - exists self, st, []. simpl. by rewrite app_nil_r.
  - inversion Ht as [|? o ? objs' Ha Ht']; subst.
    simpl. unfold bind at 1. rewrite (init_output_step self a o st Ha).
    match goal with
    | |- context [fold_m init_output addrs ?s ?t] =>
        destruct (IH objs' s t)
          as (self' & st' & h' & Hrun & Hh & Hp & Hid & Ho & Hop)
    end.
    { simpl. apply templates_app. exact Ht'. }
    { simpl. by apply pinned_step. }
    exists self', st', (clone (Object.ID self) ":O" o :: h').
    split; [exact Hrun|]. simpl in Hh, Hp, Hid, Ho, Hop.
    split; [by rewrite Hh, <- app_assoc|]. done.
Qed.

(** X15: what [Node.__init__] and [Pin.__init__] leave behind, for a class
    whose templates are in the heap. The node has a pin for every input,
    in the order of the inputs; the pin of the input [k] is what
    [getInputPin(k)] returns, its identity is [getInputID(k)], and it
    refers to the slot object that [getInputInfo(k)] returns, which carries
    the name [k], the node as owner and the same identity. The slot object
    of an output carries the identity [getOutputID(k)]. Within the node
    these identities are pairwise distinct. No object that existed is
    modified. *)
Theorem Node_init_pins (cls : Class.t) (nodeID : string) (st : Interp.t)
    (ins outs : list Info.t) :
  templates (Interp.heap st) (OrderedDict.values (Class.__inputs__ cls)) ins ->
  templates (Interp.heap st) (OrderedDict.values (Class.__outputs__ cls)) outs ->
  exists self st',
    Node_init cls nodeID st = (Ok self, st')
    /\ Object.ID self = nodeID
    /\ OrderedDict.keys (Object.inputPins self)
       = OrderedDict.keys (Object.inputs self)
    /\ (forall k a,
          Node_getInputInfo self k = Ok a ->
          Node_getInputPin self k
          = Ok {| Pin.ID := Node_getInputID self k; Pin.name := k;
                  Pin.info := a; Pin.node := nodeID |}
          /\ exists o,
               Interp.heap st' !! a = Some o
               /\ Info.name o = k
               /\ Info.owner o = Some nodeID
               /\ Info.ID o = Some (Node_getInputID self k))
    /\ (forall k a,
          Node_getOutputInfo self k = Ok a ->
          exists o,
            Interp.heap st' !! a = Some o
            /\ Info.name o = k
            /\ Info.owner o = Some nodeID
            /\ Info.ID o = Some (Node_getOutputID self k))
    /\ (forall k k',
          Node_getInputID self k = Node_getInputID self k' -> k = k')
    /\ (forall k k',
          Node_getOutputID self k = Node_getOutputID self k' -> k = k')
    /\ (forall k k', Node_getInputID self k <> Node_getOutputID self k')
    /\ (forall a o, Interp.heap st !! a = Some o ->
          Interp.heap st' !! a = Some o).
Proof.
  intros Hi Ho. unfold Node_init.
  set (self0 := {| Object.__pos__ := (0, 0); Object.ID := nodeID;
                   Object.inputs := []; Object.outputs := [];
                   Object.inputPins := []; Object.outputPins := [];
                   Object.inProgress := 1 |}).
  destruct (fold_init_input_pinned _ ins self0 st Hi)
    as (s1 & st1 & h1 & Hrun1 & Hh1 & Hp1 & Hid1 & Ho1 & Hop1).
  { split; [done|]. intros k a Hg. discriminate Hg. }
  destruct (fold_init_output_pinned (OrderedDict.values (Class.__outputs__ cls))
              outs s1 st1)
    as (s2 & st2 & h2 & Hrun2 & Hh2 & Hp2 & Hid2 & Hi2 & Hip2).
  { rewrite Hh1. apply templates_app. exact Ho. }
  { rewrite Ho1, Hop1, Hid1. split; [done|]. intros k a Hg. discriminate Hg. }
  exists s2, st2. unfold bind. rewrite Hrun1, Hrun2.
  rewrite Hid1 in Hp2. simpl in Hp1, Hp2.
  apply (pinned_app _ _ h2) in Hp1. rewrite <- Hh2 in Hp1.
  rewrite <- Hi2, <- Hip2 in Hp1.
  assert (Hid : Object.ID s2 = nodeID) by (by rewrite Hid2, Hid1).
  destruct Hp1 as [Hk1 Hp1]. destruct Hp2 as [Hk2 Hp2].
  unfold Node_getInputInfo, Node_getInputPin, Node_getOutputInfo,
    Node_getInputID, Node_getOutputID. rewrite Hid.
  split; [done|]. split; [done|]. split; [done|].
  split; [|split; [|split; [|split; [|split]]]].
  - intros k a Hg.
    destruct (OrderedDict.get k (Object.inputs s2)) as [a'|] eqn:Hga; [|done].
    injection Hg as ->. destruct (Hp1 k a Hga) as [-> Hobj]. done.
  - intros k a Hg.
    destruct (OrderedDict.get k (Object.outputs s2)) as [a'|] eqn:Hga; [|done].
    injection Hg as ->. by destruct (Hp2 k a Hga) as [_ Hobj].
  - intros k k' Heq. apply (inj (String.app nodeID)) in Heq.
    by apply (inj (String.app ":I")) in Heq.
  - intros k k' Heq. apply (inj (String.app nodeID)) in Heq.
    by apply (inj (String.app ":O")) in Heq.
  - intros k k' Heq. apply (inj (String.app nodeID)) in Heq.
    vm_compute in Heq. discriminate Heq.
  - intros a o Ha. rewrite Hh2, Hh1.
    by apply lookup_app_l_Some, lookup_app_l_Some.
Qed.

Lemma example_class_built :
  fst (class_stmt "T" None [Input decl_A; Output decl_Out; Input decl_B]
         empty_interp)
  = Ok example_class.
Proof. reflexivity. Qed.

Lemma Node_init_pins_witness :
  exists self st',
    Node_init example_class "n1" example_state = (Ok self, st')
    /\ Object.ID self = "n1"
    /\ OrderedDict.keys (Object.inputPins self)
       = OrderedDict.keys (Object.inputs self)
    /\ forall k k', Node_getInputID self k <> Node_getOutputID self k'.
Proof.
  destruct (Node_init_pins example_class "n1" example_state
              [Info_of decl_A; Info_of decl_B] [Info_of decl_Out])
    as (self & st' & H1 & H2 & H3 & _ & _ & _ & _ & H8 & _).
  - repeat constructor.
  - repeat constructor.
  - by exists self, st'.
Defined.

(** ** Hints *)

Lemma deref_all_templates addrs : forall objs acc st,
  templates (Interp.heap st) addrs objs ->
  fold_m (fun acc a => let! o := deref a in ret (acc ++ [o])) addrs acc st
  = (Ok (acc ++ objs), st).
Proof.
  induction addrs as [|a addrs IH]; intros objs acc st Ht.
  - inversion Ht; subst. simpl. by rewrite app_nil_r.
  - inversion Ht as [|? o ? objs' Ha Ht']; subst.
    simpl. unfold bind at 1. unfold bind at 1. unfold deref at 1.
    rewrite Ha. unfold ret at 1. rewrite (IH objs') by done.
    by rewrite <- app_assoc.
Qed.

Lemma deref_all_ok addrs objs st :
  templates (Interp.heap st) addrs objs ->
  deref_all addrs st = (Ok objs, st).
Proof. intros Ht. unfold deref_all. by rewrite (deref_all_templates _ objs). Qed.

Lemma hint_matches_type text data :
  String.prefix text (type_name (Decl.varType data)) = true ->
  hint_matches text (Info_of data) = true.
Proof.
  intros Hp. unfold hint_matches, Info_of, Info.init. simpl.
  destruct (Decl.hints data) as [[|h hs]|]; simpl; by rewrite Hp.
Qed.

(** X16: [Node.matchHint] on a class whose templates are in the heap
    changes nothing and answers [True] or [None], never [False]: [True]
    exactly when some hint of some input or output template starts with
    the text. A template made by [Info.__init__] has the name of its type
    among its hints, so a class with a slot of a type whose name starts
    with the text, and any class with a slot when the text is empty,
    answers [True]. *)
Theorem Node_matchHint_spec (cls : Class.t) (text : string) (st : Interp.t)
    (ins outs : list Info.t) :
  templates (Interp.heap st) (OrderedDict.values (Class.__inputs__ cls)) ins ->
  templates (Interp.heap st) (OrderedDict.values (Class.__outputs__ cls)) outs ->
  exists r,
    Node_matchHint cls text st = (Ok r, st)
    /\ (r = VBool true \/ r = VNone)
    /\ (r = VBool true
        <-> exists o hint,
              o ∈ ins ++ outs
              /\ hint ∈ Info.hints o
              /\ String.prefix text hint = true)
    /\ (forall data,
          Info_of data ∈ ins ++ outs ->
          String.prefix text (type_name (Decl.varType data)) = true ->
          r = VBool true).
Proof.
  intros Hi Ho.
  assert (Hrun : Node_matchHint cls text st
                 = (Ok (if existsb (hint_matches text) (ins ++ outs)
                        then VBool true else VNone), st)).
  { unfold Node_matchHint, Node_matchInputHint, Node_matchOutputHint, bind.
    rewrite (deref_all_ok _ ins st Hi), existsb_app.
    destruct (existsb (hint_matches text) ins); [done|]. simpl.
    rewrite (deref_all_ok _ outs st Ho).
    by destruct (existsb (hint_matches text) outs). }
  assert (Hex : existsb (hint_matches text) (ins ++ outs) = true
                <-> exists o hint,
                      o ∈ ins ++ outs
                      /\ hint ∈ Info.hints o
                      /\ String.prefix text hint = true).
  { rewrite existsb_exists. split.
    - intros (o & Hin & Hm). apply existsb_exists in Hm as (hint & Hh & Hp).
      exists o, hint. by rewrite !list_elem_of_In.
    - intros (o & hint & Hin & Hh & Hp). exists o.
      split; [by apply list_elem_of_In|].
      apply existsb_exists. exists hint. by rewrite <- list_elem_of_In. }
  eexists. split; [exact Hrun|].
  destruct (existsb (hint_matches text) (ins ++ outs)) eqn:He.
  - split; [by left|]. split; [by rewrite <- Hex|]. done.
  - split; [by right|]. split.
    + split; [done|]. intros H. by apply Hex in H.
    + intros data Hin Hp.
      assert (existsb (hint_matches text) (ins ++ outs) = true) as Ht.
      { apply existsb_exists. exists (Info_of data).
        split; [by apply list_elem_of_In | by apply hint_matches_type]. }
      congruence.
Qed.

Lemma Node_matchHint_spec_witness :
  Node_matchHint example_class "st" example_state
  = (Ok (VBool true), example_state)
  /\ Node_matchHint example_class "f" example_state
     = (Ok VNone, example_state).
Proof.
  destruct (Node_matchHint_spec example_class "st" example_state
              [Info_of decl_A; Info_of decl_B] [Info_of decl_Out])
    as (r & Hrun & _ & _ & Hty); [repeat constructor..|].
  destruct (Node_matchHint_spec example_class "f" example_state
              [Info_of decl_A; Info_of decl_B] [Info_of decl_Out])
    as (r' & Hrun' & [->| ->] & Hiff & _); [repeat constructor..| |].
  - exfalso. destruct (proj1 Hiff eq_refl) as (o & hint & Ho & Hh & Hp).
    repeat (apply elem_of_cons in Ho as [->|Ho]);
      [| | |by apply elem_of_nil in Ho];
      simpl in Hh;
      apply list_elem_of_singleton in Hh as ->; discriminate Hp.
  - rewrite Hrun, Hrun'. split; [|done]. f_equal. f_equal.
    apply (Hty decl_B); [|reflexivity].
    right. left.
Defined.

(** ** The classes [ControlNode], [SwitchNode] and [Loop] *)



